(** * django-conditions: the condition lifecycle engine

    A shallow embedding of [models.py], [managers.py], [decorators.py],
    [exceptions.py] and [management/commands/processconditions.py].

    Conventions of the embedding:
    - a [datetime] is an integer number of seconds, a [relativedelta] an
      integer offset added to it;
    - the two tables ([Condition], [Action]) are lists of rows in insertion
      order; the primary key of a new [Condition] is one more than the
      largest key in the table; the key of an [Action] is never read and is
      left out;
    - every method that touches the database is a computation in the
      monad [M]: it threads the [Store] and either returns a value or
      raises an exception; what was written before an exception stays
      written (Django's autocommit);
    - [datetime.now()] reads the field [clock] of the store; the clock does
      not move during a run, [set_clock] moves it between runs;
    - the body of an action method is supplied by the application: calling
      it is modelled as the event [Called] appended to the [trace] of the
      store;  [Action.objects.create] appends the event [Saved]. *)

From Stdlib Require Import ZArith List String Ascii Bool Lia Arith.
From Stdlib Require Import OrdersEx Sorted.
Import ListNotations.

(** ** Data model *)

Definition datetime := Z.
Definition relativedelta := Z.
Bind Scope Z_scope with datetime relativedelta.

(** [django.contrib.contenttypes]: a content type is identified by its
    natural key. *)
Record ContentType := mkContentType {
  ct_app_label : string;
  ct_model : string
}.

Definition ContentType_eqb (a b : ContentType) : bool :=
  String.eqb (ct_app_label a) (ct_app_label b) &&
  String.eqb (ct_model a) (ct_model b).

(** [class Condition(models.Model)] *)
Record Condition := mkCondition {
  cond_id : nat;
  created : datetime;
  ended : option datetime;
  content_type : ContentType;
  object_id : Z
}.

(** [Action.INITIAL], [Action.DELAYED], [Action.RECURRING], [Action.ENDING] *)
Inductive ActionType := INITIAL | DELAYED | RECURRING | ENDING.

Definition ActionType_eqb (a b : ActionType) : bool :=
  match a, b with
  | INITIAL, INITIAL | DELAYED, DELAYED
  | RECURRING, RECURRING | ENDING, ENDING => true
  | _, _ => false
  end.

(** [class Action(models.Model)]; [condition] is the foreign key. *)
Record Action := mkAction {
  executed : datetime;
  name : string;
  condition : nat;
  action_type : ActionType
}.

(** ** decorators.py

    A decorator stores [_action_type] (and the delay or the interval) on the
    function and returns the function itself. *)
Inductive Tag :=
| initial
| delayed (delay : relativedelta)
| recurring (interval : relativedelta)
| ending.

Record Method := mkMethod {
  __name__ : string;
  tag : option Tag
}.

Definition def (n : string) : Method := mkMethod n None.

Definition initial_action (func : Method) : Method :=
  mkMethod (__name__ func) (Some initial).

Definition delayed_action (delay : relativedelta) (func : Method) : Method :=
  mkMethod (__name__ func) (Some (delayed delay)).

Definition recurring_action (interval : relativedelta) (func : Method) : Method :=
  mkMethod (__name__ func) (Some (recurring interval)).

Definition ending_action (func : Method) : Method :=
  mkMethod (__name__ func) (Some ending).

(** The value of [_action_type], as the four strings of the source. *)
Definition _action_type (m : Method) : option string :=
  match tag m with
  | None => None
  | Some initial => Some "initial"%string
  | Some (delayed _) => Some "delayed"%string
  | Some (recurring _) => Some "recurring"%string
  | Some ending => Some "ending"%string
  end.

Definition _action_delay (m : Method) : relativedelta :=
  match tag m with Some (delayed d) => d | _ => 0%Z end.

Definition _action_interval (m : Method) : relativedelta :=
  match tag m with Some (recurring i) => i | _ => 0%Z end.

(** ** The subjects *)

(** A row of the concrete model a condition class is a proxy of. *)
Record Row := mkRow {
  pk : Z;
  fields : list (string * Z)
}.

(** A subclass of [ConditionClass].  [exists_when] is [None] when the class
    does not define the attribute; [body] lists the [def]s of the class in
    the order they are written; [rows] is what the default manager of the
    concrete model returns ([super().get_query_set()]). *)
Record ConditionClass := mkConditionClass {
  app_label : string;
  object_name : string;
  exists_when : option (Row -> bool);
  body : list Method;
  rows : list Row
}.

(** ** The store and the monad *)

Inductive Event :=
| Saved (a : Action)
| Called (ct : ContentType) (subject : Z) (m : Method).

Record Store := mkStore {
  conditions : list Condition;
  actions : list Action;
  clock : datetime;
  trace : list Event
}.

Definition empty_store (t : datetime) : Store := mkStore [] [] t [].

Definition set_clock (t : datetime) (s : Store) : Store :=
  mkStore (conditions s) (actions s) t (trace s).

Inductive exn :=
| NotImplementedError
| MultipleObjectsReturned
| CommandError.

Inductive result (A : Type) :=
| Ok (a : A)
| Raise (e : exn).
Arguments Ok {A} a.
Arguments Raise {A} e.

Definition M (A : Type) := Store -> result A * Store.

Definition ret {A} (a : A) : M A := fun s => (Ok a, s).

Definition raise {A} (e : exn) : M A := fun s => (Raise e, s).

Definition bind {A B} (m : M A) (k : A -> M B) : M B :=
  fun s =>
    match m s with
    | (Ok a, s') => k a s'
    | (Raise e, s') => (Raise e, s')
    end.

Notation "x <- m ;; k" := (bind m (fun x => k))
  (at level 61, m at next level, right associativity).
Notation "m ;;; k" := (bind m (fun _ => k))
  (at level 61, right associativity).

(** [for x in xs: f(x)] *)
Fixpoint for_each {A} (xs : list A) (f : A -> M unit) : M unit :=
  match xs with
  | [] => ret tt
  | x :: xs' => f x ;;; for_each xs' f
  end.

Definition when (b : bool) (m : M unit) : M unit :=
  if b then m else ret tt.

Definition datetime_now : M datetime := fun s => (Ok (clock s), s).

Definition next_pk (ids : list nat) : nat := S (fold_right Nat.max 0%nat ids).

(** ** managers.py and the ORM calls the engine makes *)

Definition is_open (c : Condition) : bool :=
  match ended c with None => true | Some _ => false end.

(** [Condition.objects.open_conditions()]: [filter(ended__isnull=True)] *)
Definition open_conditions (s : Store) : list Condition :=
  filter is_open (conditions s).

Definition lower_ascii (c : ascii) : ascii :=
  let n := nat_of_ascii c in
  if (65 <=? n)%nat && (n <=? 90)%nat then ascii_of_nat (n + 32) else c.

Fixpoint lower (s : string) : string :=
  match s with
  | EmptyString => EmptyString
  | String c s' => String (lower_ascii c) (lower s')
  end.

(** [ConditionClass.get_ct]: the content type of the proxy class itself,
    looked up by [(app_label, object_name.lower())]. *)
Definition get_ct (cls : ConditionClass) : ContentType :=
  mkContentType (app_label cls) (lower (object_name cls)).

(** [queryset.filter(content_type=ct, object_id=pk)] *)
Definition for_subject (ct : ContentType) (oid : Z) (c : Condition) : bool :=
  ContentType_eqb (content_type c) ct && (object_id c =? oid)%Z.

(** [Condition.objects.open_conditions().get_or_create(content_type=ct,
    object_id=pk)]: [get] on the filtered query set; when nothing matches, a
    row is created from the two arguments and the field defaults
    ([created = datetime.now], [ended] null); more than one match makes
    [get] raise. *)
Definition get_or_create (ct : ContentType) (oid : Z) : M Condition :=
  fun s =>
    match filter (for_subject ct oid) (open_conditions s) with
    | [] =>
        let c := mkCondition (next_pk (map cond_id (conditions s)))
                             (clock s) None ct oid in
        (Ok c, mkStore (conditions s ++ [c]) (actions s) (clock s) (trace s))
    | [c] => (Ok c, s)
    | _ :: _ :: _ => (Raise MultipleObjectsReturned, s)
    end.

(** [condition.ended = t] on the object read from the table. *)
Definition set_ended (c : Condition) (t : datetime) : Condition :=
  mkCondition (cond_id c) (created c) (Some t) (content_type c) (object_id c).

(** [condition.save()] of a row read from the table: the row with this
    primary key is replaced. *)
Definition save (c : Condition) : M unit :=
  fun s =>
    (Ok tt,
     mkStore (map (fun r => if (cond_id r =? cond_id c)%nat then c else r)
                  (conditions s))
             (actions s) (clock s) (trace s)).

(** [Action.objects.create(condition=c, action_type=ty, name=n)]; [executed]
    takes its default, [datetime.now].  The model declares no uniqueness
    constraint: the row is always inserted. *)
Definition Action_objects_create (c : Condition) (ty : ActionType)
    (n : string) : M Action :=
  fun s =>
    let a := mkAction (clock s) n (cond_id c) ty in
    (Ok a, mkStore (conditions s) (actions s ++ [a]) (clock s)
                   (trace s ++ [Saved a])).

(** The lookup [condition=cid, name=n, action_type=ty] on one row. *)
Definition is_record (cid : nat) (n : string) (ty : ActionType) (a : Action)
    : bool :=
  (condition a =? cid)%nat && String.eqb (name a) n &&
  ActionType_eqb (action_type a) ty.

(** [Action.objects.filter(condition=c, name=n, action_type=ty)] *)
Definition Action_objects_filter (c : Condition) (n : string)
    (ty : ActionType) : M (list Action) :=
  fun s => (Ok (filter (is_record (cond_id c) n ty) (actions s)), s).

(** [qry.latest().executed] with [get_latest_by = 'executed']: the largest
    [executed] of the query set (called on a non-empty one only). *)
Definition latest_executed (qry : list Action) : datetime :=
  match qry with
  | [] => 0%Z
  | a :: qry' => fold_left Z.max (map executed qry') (executed a)
  end.

(** [ConditionClassManager.get_query_set].  [raise NoExistsWhen] builds the
    exception first, and [NoExistsWhen.__init__] itself raises
    [NotImplementedError]: that is the exception the caller sees. *)
Definition get_query_set (cls : ConditionClass) : M (list Row) :=
  match exists_when cls with
  | Some q => ret (filter q (rows cls))
  | None => raise NotImplementedError
  end.

(** [ConditionClassManager._get_ids_with_conditions] *)
Definition _get_ids_with_conditions (cls : ConditionClass) : M (list Z) :=
  fun s =>
    (Ok (map object_id
             (filter (fun c => ContentType_eqb (content_type c) (get_ct cls))
                     (open_conditions s))), s).

Definition pk__in (ids : list Z) (r : Row) : bool :=
  existsb (Z.eqb (pk r)) ids.

(** [ConditionClassManager.to_be_created] *)
Definition to_be_created (cls : ConditionClass) : M (list Row) :=
  qs <- get_query_set cls ;;
  ids <- _get_ids_with_conditions cls ;;
  ret (filter (fun r => negb (pk__in ids r)) qs).

(** [ConditionClassManager.to_be_ended] *)
Definition to_be_ended (cls : ConditionClass) : M (list Row) :=
  qs <- match exists_when cls with
        | Some q => ret (filter (fun r => negb (q r)) (rows cls))
        | None => raise NotImplementedError
        end ;;
  ids <- _get_ids_with_conditions cls ;;
  ret (filter (pk__in ids) qs).

(** ** models.py: [ConditionClass] *)

(** Assignment of a [def] in the namespace of the class, kept sorted by
    name; a second [def] of a name replaces the first. *)
Fixpoint setattr (m : Method) (ms : list Method) : list Method :=
  match ms with
  | [] => [m]
  | x :: xs =>
      match String_as_OT.compare (__name__ m) (__name__ x) with
      | Lt => m :: x :: xs
      | Eq => m :: xs
      | Gt => x :: setattr m xs
      end
  end.

(** [inspect.getmembers(cls, predicate)]: the members of the class that
    satisfy the predicate, sorted by name. *)
Definition getmembers (cls : ConditionClass) (predicate : Method -> bool)
    : list Method :=
  filter predicate (fold_left (fun ns m => setattr m ns) (body cls) []).

Definition hasattr_action_type (m : Method) : bool :=
  match _action_type m with Some _ => true | None => false end.

(** [ConditionClass._get_action_methods] *)
Definition _get_action_methods (cls : ConditionClass) (action_type : string)
    : list Method :=
  filter (fun m => match _action_type m with
                   | Some t => String.eqb t action_type
                   | None => false
                   end)
         (getmembers cls hasattr_action_type).

(** [ConditionClass.get_or_create_condition], the getter of the property
    [condition]. *)
Definition get_or_create_condition (cls : ConditionClass) (self : Row)
    : M Condition :=
  get_or_create (get_ct cls) (pk self).

(** [action(self)]: the body belongs to the application; it is taken to
    return and to leave the two tables alone, so the call shows on the
    trace only. *)
Definition call (cls : ConditionClass) (self : Row) (action : Method)
    : M unit :=
  fun s =>
    (Ok tt, mkStore (conditions s) (actions s) (clock s)
                    (trace s ++ [Called (get_ct cls) (pk self) action])).

Definition execute_initial_actions (cls : ConditionClass) (self : Row)
    : M unit :=
  for_each (_get_action_methods cls "initial")
    (fun action =>
       c <- get_or_create_condition cls self ;;
       Action_objects_create c INITIAL (__name__ action) ;;;
       call cls self action).

Definition create_condition (cls : ConditionClass) (self : Row)
    (execute : bool) : M unit :=
  get_or_create_condition cls self ;;;
  when execute (execute_initial_actions cls self).

(** The [for] loop of [get_triggered_delayed_actions]; [not qry.count()
    and ...] reads the clock only when the count is zero. *)
Fixpoint delayed_loop (c : Condition) (ms : list Method)
    (triggered_actions : list Method) : M (list Method) :=
  match ms with
  | [] => ret triggered_actions
  | action :: ms' =>
      qry <- Action_objects_filter c (__name__ action) DELAYED ;;
      due <- (if (List.length qry =? 0)%nat
              then now <- datetime_now ;;
                   ret (created c + _action_delay action <=? now)%Z
              else ret false) ;;
      if due then delayed_loop c ms' (triggered_actions ++ [action])
      else delayed_loop c ms' triggered_actions
  end.

Definition get_triggered_delayed_actions (cls : ConditionClass) (self : Row)
    : M (list Method) :=
  c <- get_or_create_condition cls self ;;
  delayed_loop c (_get_action_methods cls "delayed") [].

Definition execute_delayed_actions (cls : ConditionClass) (self : Row)
    : M unit :=
  triggered <- get_triggered_delayed_actions cls self ;;
  for_each triggered
    (fun action =>
       c <- get_or_create_condition cls self ;;
       Action_objects_create c DELAYED (__name__ action) ;;;
       call cls self action).

(** The [for] loop of [get_triggered_recurring_actions]. *)
Fixpoint recurring_loop (c : Condition) (ms : list Method)
    (triggered_actions : list Method) : M (list Method) :=
  match ms with
  | [] => ret triggered_actions
  | action :: ms' =>
      qry <- Action_objects_filter c (__name__ action) RECURRING ;;
      let last_action :=
        if negb (List.length qry =? 0)%nat then latest_executed qry
        else created c in
      now <- datetime_now ;;
      if (last_action + _action_interval action <=? now)%Z
      then recurring_loop c ms' (triggered_actions ++ [action])
      else recurring_loop c ms' triggered_actions
  end.

Definition get_triggered_recurring_actions (cls : ConditionClass) (self : Row)
    : M (list Method) :=
  c <- get_or_create_condition cls self ;;
  recurring_loop c (_get_action_methods cls "recurring") [].

Definition execute_recurring_actions (cls : ConditionClass) (self : Row)
    : M unit :=
  triggered <- get_triggered_recurring_actions cls self ;;
  for_each triggered
    (fun action =>
       c <- get_or_create_condition cls self ;;
       Action_objects_create c RECURRING (__name__ action) ;;;
       call cls self action).

Definition execute_ending_actions (cls : ConditionClass) (self : Row)
    : M unit :=
  for_each (_get_action_methods cls "ending")
    (fun action =>
       c <- get_or_create_condition cls self ;;
       Action_objects_create c ENDING (__name__ action) ;;;
       call cls self action).

Definition end_condition (cls : ConditionClass) (self : Row)
    (execute : bool) (ended_date : option datetime) : M unit :=
  when execute (execute_ending_actions cls self) ;;;
  c <- get_or_create_condition cls self ;;
  now <- match ended_date with
         | Some d => ret d
         | None => datetime_now
         end ;;
  save (set_ended c now).

Definition create_all_conditions (cls : ConditionClass) (execute : bool)
    : M unit :=
  models <- to_be_created cls ;;
  for_each models (fun model => create_condition cls model execute).

Definition execute_all_delayed (cls : ConditionClass) : M unit :=
  models <- get_query_set cls ;;
  for_each models (fun model => execute_delayed_actions cls model).

Definition execute_all_recurring (cls : ConditionClass) : M unit :=
  models <- get_query_set cls ;;
  for_each models (fun model => execute_recurring_actions cls model).

Definition end_all_conditions (cls : ConditionClass) (execute : bool)
    : M unit :=
  models <- to_be_ended cls ;;
  for_each models (fun model => end_condition cls model execute None).

(** ** management/commands/processconditions.py *)

Definition in_list (x : string) (xs : list string) : bool :=
  existsb (String.eqb x) xs.

(** The test [if app:]: [None] and the empty string are false. *)
Definition truthy (app : option string) : option string :=
  match app with
  | Some a => if String.eqb a "" then None else Some a
  | None => None
  end.

(** [Command.condition_classes]; [subclasses] is
    [ConditionClass.__subclasses__()] and [installed_apps] is
    [settings.INSTALLED_APPS]. *)
Definition condition_classes (subclasses : list ConditionClass)
    (installed_apps : list string) (app : option string)
    : M (list ConditionClass) :=
  classes <- match truthy app with
             | Some a =>
                 if negb (in_list a installed_apps) then raise CommandError
                 else
                   let cs := filter (fun x => String.eqb (app_label x) a)
                                    subclasses in
                   if (List.length cs =? 0)%nat then raise CommandError
                   else ret cs
             | None => ret subclasses
             end ;;
  if (List.length classes =? 0)%nat then raise CommandError else ret classes.

(** The body of the [for cls in ...] loop of [Command.handle]. *)
Definition process (cls : ConditionClass) (execute : bool) : M unit :=
  create_all_conditions cls execute ;;;
  end_all_conditions cls execute ;;;
  when execute (execute_all_delayed cls ;;; execute_all_recurring cls).

(** [Command.handle]; the two options are [all_apps] and [no_execute]. *)
Definition handle (subclasses : list ConditionClass)
    (installed_apps : list string) (app : option string)
    (all_apps no_execute : bool) : M unit :=
  let app := if all_apps then None else app in
  let execute := if no_execute then false else true in
  classes <- condition_classes subclasses installed_apps app ;;
  for_each classes (fun cls => process cls execute).

(** ** Vocabulary of the specification *)

(** The open conditions of one (content type, subject) pair. *)
Definition open_for (s : Store) (ct : ContentType) (oid : Z) : list Condition :=
  filter (for_subject ct oid) (open_conditions s).

Definition at_most_one_open (s : Store) : Prop :=
  forall ct oid, (List.length (open_for s ct oid) <= 1)%nat.

Definition ids_unique (s : Store) : Prop :=
  NoDup (map cond_id (conditions s)).

(** Every [Action] points to a row of [Condition] (the foreign key). *)
Definition fk_valid (s : Store) : Prop :=
  forall a, In a (actions s) -> In (condition a) (map cond_id (conditions s)).

(** Number of [Action] rows of one (condition, name, type). *)
Definition count_records (s : Store) (cid : nat) (n : string)
    (ty : ActionType) : nat :=
  List.length (filter (is_record cid n ty) (actions s)).

(** A delayed method is due: no [DELAYED] record of its name for the
    condition, and the delay has passed since [created]. *)
Definition delayed_due (s : Store) (c : Condition) (m : Method) : bool :=
  (count_records s (cond_id c) (__name__ m) DELAYED =? 0)%nat &&
  (created c + _action_delay m <=? clock s)%Z.

(** The baseline of a recurring method: [executed] of the latest
    [RECURRING] record of its name when there is one, else [created]. *)
Definition baseline (s : Store) (c : Condition) (m : Method) : datetime :=
  if (count_records s (cond_id c) (__name__ m) RECURRING =? 0)%nat
  then created c
  else latest_executed
         (filter (is_record (cond_id c) (__name__ m) RECURRING) (actions s)).

Definition recurring_due (s : Store) (c : Condition) (m : Method) : bool :=
  (baseline s c m + _action_interval m <=? clock s)%Z.

(** The row [Action.objects.create] writes for method [m] at time [t]. *)
Definition record_of (c : Condition) (ty : ActionType) (t : datetime)
    (m : Method) : Action :=
  mkAction t (__name__ m) (cond_id c) ty.

(** The body shared by the four [execute_*_actions] loops. *)
Definition fire (cls : ConditionClass) (self : Row) (ty : ActionType)
    (action : Method) : M unit :=
  c <- get_or_create_condition cls self ;;
  Action_objects_create c ty (__name__ action) ;;;
  call cls self action.

Definition fire_events (cls : ConditionClass) (self : Row) (c : Condition)
    (ty : ActionType) (t : datetime) (ms : list Method) : list Event :=
  flat_map (fun m => [Saved (record_of c ty t m);
                      Called (get_ct cls) (pk self) m]) ms.

Definition ActionType_of_tag (t : Tag) : ActionType :=
  match t with
  | initial => INITIAL
  | delayed _ => DELAYED
  | recurring _ => RECURRING
  | ending => ENDING
  end.

Definition name_lt (a b : Method) : Prop :=
  String_as_OT.lt (__name__ a) (__name__ b).

(** The tagged methods of a class in the order of the class body. *)
Definition declared (cls : ConditionClass) (action_type : string)
    : list Method :=
  filter (fun m => match _action_type m with
                   | Some t => String.eqb t action_type
                   | None => false
                   end) (body cls).

(** [LifecycleCoordinator.Reconcile] of the specification. *)
Definition reconcile (cls : ConditionClass) (execute : bool) : M unit :=
  create_all_conditions cls execute ;;; end_all_conditions cls execute.

(** The operations of the engine, as one type. *)
Inductive Op :=
| OpCondition (cls : ConditionClass) (self : Row)
| OpCreateCondition (cls : ConditionClass) (self : Row) (execute : bool)
| OpEndCondition (cls : ConditionClass) (self : Row) (execute : bool)
    (ended_date : option datetime)
| OpInitial (cls : ConditionClass) (self : Row)
| OpDelayed (cls : ConditionClass) (self : Row)
| OpRecurring (cls : ConditionClass) (self : Row)
| OpEnding (cls : ConditionClass) (self : Row)
| OpCreateAll (cls : ConditionClass) (execute : bool)
| OpEndAll (cls : ConditionClass) (execute : bool)
| OpAllDelayed (cls : ConditionClass)
| OpAllRecurring (cls : ConditionClass)
| OpHandle (subclasses : list ConditionClass) (installed_apps : list string)
    (app : option string) (all_apps no_execute : bool)
| OpClock (t : datetime).

Definition run_op (o : Op) : M unit :=
  match o with
  | OpCondition cls self => get_or_create_condition cls self ;;; ret tt
  | OpCreateCondition cls self e => create_condition cls self e
  | OpEndCondition cls self e d => end_condition cls self e d
  | OpInitial cls self => execute_initial_actions cls self
  | OpDelayed cls self => execute_delayed_actions cls self
  | OpRecurring cls self => execute_recurring_actions cls self
  | OpEnding cls self => execute_ending_actions cls self
  | OpCreateAll cls e => create_all_conditions cls e
  | OpEndAll cls e => end_all_conditions cls e
  | OpAllDelayed cls => execute_all_delayed cls
  | OpAllRecurring cls => execute_all_recurring cls
  | OpHandle subs apps app a n => handle subs apps app a n
  | OpClock t => fun s => (Ok tt, set_clock t s)
  end.

(** The store after a sequence of operations; an exception ends one
    operation, not the sequence (the next run starts from what was
    written). *)
Definition run_ops (os : list Op) (s : Store) : Store :=
  fold_left (fun s o => snd (run_op o s)) os s.

(** A triple for computations in [M]: from a store satisfying [P] the
    computation ends in a store satisfying [Q] of its value, or [E] of the
    exception it raised. *)
Definition hoare {A} (P : Store -> Prop) (m : M A)
    (Q : A -> Store -> Prop) (E : exn -> Store -> Prop) : Prop :=
  forall s, P s ->
    match m s with
    | (Ok a, s') => Q a s'
    | (Raise e, s') => E e s'
    end.

(** [m] keeps the invariant [I], whatever its outcome. *)
Definition preserves {A} (I : Store -> Prop) (m : M A) : Prop :=
  hoare I m (fun _ => I) (fun _ => I).

(** The row [get_or_create] inserts, and the store with one more row. *)
Definition new_condition (s : Store) (ct : ContentType) (oid : Z)
    : Condition :=
  mkCondition (next_pk (map cond_id (conditions s))) (clock s) None ct oid.

Definition with_condition (s : Store) (c : Condition) : Store :=
  mkStore (conditions s ++ [c]) (actions s) (clock s) (trace s).

(** The store after the loop body has run for the methods [ms] of a
    subject whose open condition is [c]. *)
Definition fired (cls : ConditionClass) (self : Row) (c : Condition)
    (ty : ActionType) (ms : list Method) (s : Store) : Store :=
  mkStore (conditions s)
          (actions s ++ map (record_of c ty (clock s)) ms)
          (clock s)
          (trace s ++ fire_events cls self c ty (clock s) ms).

(** The subjects of class [cls] that have an open condition. *)
Definition open_ids (cls : ConditionClass) (s : Store) : list Z :=
  map object_id
      (filter (fun c => ContentType_eqb (content_type c) (get_ct cls))
              (open_conditions s)).

(** The trigger class of a row agrees with the decorator of a method. *)
Definition tag_matches (ty : ActionType) (m : Method) : Prop :=
  exists t, tag m = Some t /\ ActionType_of_tag t = ty.

(** [a] is the record of the call of [m] on the subject [(ct, subject)]: it
    is in the table, has the name and the trigger class of [m], and belongs
    to a condition of the subject. *)
Definition corresponds (s : Store) (ct : ContentType) (subject : Z)
    (m : Method) (a : Action) : Prop :=
  In a (actions s) /\ name a = __name__ m /\
  tag_matches (action_type a) m /\
  exists c, In c (conditions s) /\ cond_id c = condition a /\
            content_type c = ct /\ object_id c = subject.

(** Write-then-execute, on the trace: whatever prefix of the run ends in a
    call, the event just before the call is the insertion of its record. *)
Definition record_before_call (s : Store) : Prop :=
  forall pre post ct subject m,
    trace s = pre ++ Called ct subject m :: post ->
    exists pre' a, pre = pre' ++ [Saved a] /\ corresponds s ct subject m a.


(** Nothing is left to open or to end for the class. *)
Definition settled (cls : ConditionClass) (s : Store) : Prop :=
  to_be_created cls s = (Ok [], s) /\ to_be_ended cls s = (Ok [], s).

(** With [execute] set, every condition whose key is not in [ids0] (the
    keys before the run) has exactly one [INITIAL] row per initial method
    of the class. *)
Definition initial_once (cls : ConditionClass) (execute : bool)
    (ids0 : list nat) (s : Store) : Prop :=
  execute = true ->
  forall i, In i (map cond_id (conditions s)) -> ~ In i ids0 ->
  forall m, In m (_get_action_methods cls "initial") ->
    count_records s i (__name__ m) INITIAL = 1%nat.

(** Reconciliation run again at each of the times [ts]. *)
Definition reconcile_again (cls : ConditionClass) (execute : bool)
    (ts : list datetime) (s : Store) : Store :=
  fold_left (fun s t => snd (reconcile cls execute (set_clock t s))) ts s.

(** The computation ends without an exception and keeps the invariant
    [I]. *)
Definition safe {A} (I : Store -> Prop) (m : M A) : Prop :=
  hoare I m (fun _ => I) (fun _ _ => False).

(** The rows of [s] that the store [s'] of a later moment still holds:
    same key, same [created], same subject. *)
Definition same_row (c c' : Condition) : Prop :=
  cond_id c' = cond_id c /\ created c' = created c /\
  content_type c' = content_type c /\ object_id c' = object_id c.

(** The last [def] of a name in a class body. *)
Definition last_def (body : list Method) (m : Method) : Prop :=
  exists pre post, body = pre ++ m :: post /\
                   ~ In (__name__ m) (map __name__ post).

(** Customer 1 with two open conditions: a table no run of the engine
    produces, but one a second process or the admin site can leave. *)
Definition store_two_open : Store :=
  mkStore [mkCondition 1 0 None (mkContentType "billing" "overdue") 1;
           mkCondition 2 0 None (mkContentType "billing" "overdue") 1]
          [] 0 [].

(** The rows the trace shows inserted, in order. *)
Definition saved_rows (tr : list Event) : list Action :=
  flat_map (fun ev => match ev with Saved a => [a] | Called _ _ _ => [] end)
           tr.

(** [Action.objects.create(condition=c, action_type=ty, name=n)] called [k]
    times in a row. *)
Definition record_again (c : Condition) (ty : ActionType) (n : string)
    (k : nat) : M unit :=
  for_each (repeat tt k)
           (fun _ => Action_objects_create c ty n ;;; ret tt).

(** ** A worked example

    The class [Overdue] of the end-to-end example of the specification,
    with two more actions, and a class that forgot [exists_when]. *)

Definition field (n : string) (r : Row) : Z :=
  match find (fun kv => String.eqb (fst kv) n) (fields r) with
  | Some kv => snd kv
  | None => 0%Z
  end.

Definition day : relativedelta := 86400%Z.

Definition Overdue : ConditionClass :=
  mkConditionClass "billing" "Overdue"
    (Some (fun r => (0 <? field "balance" r)%Z))
    [ initial_action (def "notify_customer");
      initial_action (def "flag_account");
      delayed_action (3 * day)%Z (def "notify_manager");
      recurring_action (7 * day)%Z (def "remind");
      ending_action (def "thank_customer") ]
    [ mkRow 1%Z [("balance"%string, 50%Z)];
      mkRow 2%Z [("balance"%string, 0%Z)] ].

Definition Unconfigured : ConditionClass :=
  mkConditionClass "billing" "Unconfigured" None
    [ initial_action (def "notify_customer") ]
    [ mkRow 1%Z [("balance"%string, 50%Z)] ].

Definition customer1 : Row := mkRow 1%Z [("balance"%string, 50%Z)].
Definition customer2 : Row := mkRow 2%Z [("balance"%string, 0%Z)].

Definition overdue_ct : ContentType := mkContentType "billing" "overdue".

(** Customer 1 was overdue once before: one closed condition. *)
Definition store_closed : Store :=
  mkStore [mkCondition 1 0%Z (Some day) overdue_ct 1%Z] [] (2 * day)%Z [].

(** Customer 1 is overdue since time 0: one open condition. *)
Definition store_open (t : datetime) : Store :=
  mkStore [mkCondition 1 0%Z None overdue_ct 1%Z] [] t [].

(** ** Basic facts *)

Lemma ContentType_eqb_eq a b : ContentType_eqb a b = true <-> a = b.
Proof.
  unfold ContentType_eqb.
  rewrite andb_true_iff, !String.eqb_eq.
  destruct a, b; simpl; split.
  - intros [-> ->]; reflexivity.
  - intros H; inversion H; auto.
Qed.

Lemma ContentType_eqb_refl a : ContentType_eqb a a = true.
Proof. apply ContentType_eqb_eq; reflexivity. Qed.

Lemma for_subject_true ct oid c :
  for_subject ct oid c = true <-> content_type c = ct /\ object_id c = oid.
Proof.
  unfold for_subject.
  rewrite andb_true_iff, ContentType_eqb_eq, Z.eqb_eq; tauto.
Qed.

Lemma store_eta s :
  mkStore (conditions s) (actions s) (clock s) (trace s) = s.
Proof. destruct s; reflexivity. Qed.

Lemma bind_ok {A B} (m : M A) (k : A -> M B) s a s' :
  m s = (Ok a, s') -> bind m k s = k a s'.
Proof. unfold bind; intros ->; reflexivity. Qed.

Lemma bind_raise {A B} (m : M A) (k : A -> M B) s e s' :
  m s = (Raise e, s') -> bind m k s = (Raise e, s').
Proof. unfold bind; intros ->; reflexivity. Qed.

Lemma for_each_app {A} (xs ys : list A) (f : A -> M unit) s s' :
  for_each xs f s = (Ok tt, s') ->
  for_each (xs ++ ys) f s = for_each ys f s'.
Proof.
  revert s; induction xs as [|x xs IH]; simpl; intros s H.
  - inversion H; reflexivity.
  - unfold bind in *. destruct (f x s) as [[[]|e] s1]; [auto|discriminate].
Qed.

Lemma for_each_app_raise {A} (xs ys : list A) (f : A -> M unit) s e s' :
  for_each xs f s = (Raise e, s') ->
  for_each (xs ++ ys) f s = (Raise e, s').
Proof.
  revert s; induction xs as [|x xs IH]; simpl; intros s H.
  - discriminate.
  - unfold bind in *. destruct (f x s) as [[[]|e'] s1]; auto.
Qed.

Lemma condition_classes_read subclasses apps app s :
  snd (condition_classes subclasses apps app s) = s.
Proof.
  unfold condition_classes, bind. destruct (truthy app) as [a|]; simpl.
  - destruct (negb (in_list a apps)); simpl; [reflexivity|].
    destruct (List.length _ =? 0)%nat; simpl; [reflexivity|].
    destruct (List.length _ =? 0)%nat; reflexivity.
  - destruct (List.length subclasses =? 0)%nat; reflexivity.
Qed.

(** ** Rules for triples *)

Section Rules.
Context {A B : Type}.

Lemma hoare_ret (P : Store -> Prop) (a : A) (Q : A -> Store -> Prop) E :
  (forall s, P s -> Q a s) -> hoare P (ret a) Q E.
Proof. intros H s Hs; simpl; auto. Qed.

Lemma hoare_raise (P : Store -> Prop) e (Q : A -> Store -> Prop)
    (E : exn -> Store -> Prop) :
  (forall s, P s -> E e s) -> hoare P (raise e) Q E.
Proof. intros H s Hs; simpl; auto. Qed.

Lemma hoare_bind (P : Store -> Prop) (m : M A) (k : A -> M B)
    (R : A -> Store -> Prop) (Q : B -> Store -> Prop) E :
  hoare P m R E ->
  (forall a, hoare (R a) (k a) Q E) ->
  hoare P (bind m k) Q E.
Proof.
  intros Hm Hk s Hs. unfold bind.
  specialize (Hm s Hs). destruct (m s) as [[a|e] s1]; [|exact Hm].
  apply (Hk a s1 Hm).
Qed.

Lemma hoare_conseq (P P' : Store -> Prop) (m : M A)
    (Q Q' : A -> Store -> Prop) (E E' : exn -> Store -> Prop) :
  hoare P' m Q' E' ->
  (forall s, P s -> P' s) ->
  (forall a s, Q' a s -> Q a s) ->
  (forall e s, E' e s -> E e s) ->
  hoare P m Q E.
Proof.
  intros H HP HQ HE s Hs. specialize (H s (HP s Hs)).
  destruct (m s) as [[a|e] s1]; auto.
Qed.
End Rules.

Lemma preserves_bind {A B} (I : Store -> Prop) (m : M A) (k : A -> M B) :
  preserves I m -> (forall a, preserves I (k a)) -> preserves I (bind m k).
Proof. intros Hm Hk. eapply hoare_bind; [exact Hm|exact Hk]. Qed.

Lemma preserves_ret {A} (I : Store -> Prop) (a : A) : preserves I (ret a).
Proof. apply hoare_ret; auto. Qed.

Lemma preserves_raise {A} (I : Store -> Prop) e : preserves I (@raise A e).
Proof. apply hoare_raise; auto. Qed.

Lemma preserves_when (I : Store -> Prop) b m :
  preserves I m -> preserves I (when b m).
Proof. destruct b; simpl; auto using preserves_ret. Qed.

Lemma preserves_for_each {A} (I : Store -> Prop) (xs : list A) f :
  (forall x, In x xs -> preserves I (f x)) -> preserves I (for_each xs f).
Proof.
  induction xs as [|x xs IH]; simpl; intros H.
  - apply preserves_ret.
  - apply preserves_bind; [apply H; auto|intros _; apply IH; auto].
Qed.

(** A read leaves the store as it is. *)
Lemma preserves_read {A} (I : Store -> Prop) (m : M A) :
  (forall s, snd (m s) = s) -> preserves I m.
Proof.
  intros H s Hs. specialize (H s). destruct (m s) as [[a|e] s1]; simpl in H;
    subst; exact Hs.
Qed.

Lemma preserves_snd {A} (I : Store -> Prop) (m : M A) s :
  preserves I m -> I s -> I (snd (m s)).
Proof.
  intros H Hs. specialize (H s Hs). destruct (m s) as [[a|e] s1]; exact H.
Qed.

Lemma preserves_and {A} (I J : Store -> Prop) (m : M A) :
  preserves I m -> preserves J m -> preserves (fun s => I s /\ J s) m.
Proof.
  intros HI HJ s [H1 H2]. specialize (HI s H1). specialize (HJ s H2).
  destruct (m s) as [[a|e] s1]; auto.
Qed.

(** ** [get_or_create] *)

Lemma open_for_ext s s' ct oid :
  conditions s = conditions s' -> open_for s ct oid = open_for s' ct oid.
Proof. unfold open_for, open_conditions; intros ->; reflexivity. Qed.

Lemma get_or_create_found s ct oid c :
  open_for s ct oid = [c] -> get_or_create ct oid s = (Ok c, s).
Proof. unfold get_or_create, open_for; intros ->; reflexivity. Qed.

Lemma get_or_create_missing s ct oid :
  open_for s ct oid = [] ->
  get_or_create ct oid s =
    (Ok (new_condition s ct oid), with_condition s (new_condition s ct oid)).
Proof. unfold get_or_create, open_for; intros ->; reflexivity. Qed.

Lemma get_or_create_many s ct oid c1 c2 cs :
  open_for s ct oid = c1 :: c2 :: cs ->
  get_or_create ct oid s = (Raise MultipleObjectsReturned, s).
Proof. unfold get_or_create, open_for; intros ->; reflexivity. Qed.

Lemma open_for_with_condition s c ct oid :
  open_for (with_condition s c) ct oid =
    open_for s ct oid ++
    (if is_open c && for_subject ct oid c then [c] else []).
Proof.
  unfold open_for, open_conditions, with_condition; simpl.
  rewrite !filter_app; simpl.
  destruct (is_open c); simpl; [|reflexivity].
  destruct (for_subject ct oid c); reflexivity.
Qed.

Lemma for_subject_new s ct oid ct' oid' :
  for_subject ct' oid' (new_condition s ct oid) = true <->
  ct = ct' /\ oid = oid'.
Proof. rewrite for_subject_true; simpl; tauto. Qed.

Lemma open_for_created s ct oid :
  open_for s ct oid = [] ->
  open_for (with_condition s (new_condition s ct oid)) ct oid =
    [new_condition s ct oid].
Proof.
  intros H. rewrite open_for_with_condition, H; simpl.
  replace (for_subject ct oid (new_condition s ct oid)) with true;
    [reflexivity|].
  symmetry; apply for_subject_new; auto.
Qed.

Lemma open_for_created_other s ct oid ct' oid' :
  (ct, oid) <> (ct', oid') ->
  open_for (with_condition s (new_condition s ct oid)) ct' oid' =
    open_for s ct' oid'.
Proof.
  intros H. rewrite open_for_with_condition; simpl.
  destruct (for_subject ct' oid' (new_condition s ct oid)) eqn:E.
  - apply for_subject_new in E. destruct E; subst; congruence.
  - apply app_nil_r.
Qed.

(** After [self.condition] has returned [c], [c] is the one open condition
    of the subject. *)
Lemma get_or_create_post s ct oid c s' :
  get_or_create ct oid s = (Ok c, s') ->
  open_for s' ct oid = [c] /\
  (s' = s \/
   (open_for s ct oid = [] /\ c = new_condition s ct oid /\
    s' = with_condition s c)).
Proof.
  destruct (open_for s ct oid) as [|c1 [|c2 cs]] eqn:E; intros H.
  - rewrite (get_or_create_missing _ _ _ E) in H. inversion H; subst.
    split; [apply open_for_created; auto|right; auto].
  - rewrite (get_or_create_found _ _ _ _ E) in H. inversion H; subst; auto.
  - rewrite (get_or_create_many _ _ _ _ _ _ E) in H. discriminate.
Qed.

(** ** The loop body of the [execute_*_actions] methods *)

Lemma for_each_fire_found cls self ty c ms s :
  open_for s (get_ct cls) (pk self) = [c] ->
  for_each ms (fire cls self ty) s = (Ok tt, fired cls self c ty ms s).
Proof.
  revert s; induction ms as [|m ms IH]; intros s H.
  - simpl. unfold ret, fired, fire_events; simpl.
    rewrite !app_nil_r, store_eta; reflexivity.
  - simpl. unfold fire at 1, get_or_create_condition.
    unfold bind at 1 2. rewrite (get_or_create_found _ _ _ _ H).
    unfold bind at 1. simpl.
    rewrite IH by (erewrite open_for_ext; [exact H|reflexivity]).
    unfold fired, fire_events; simpl.
    rewrite <- !app_assoc; reflexivity.
Qed.

Lemma execute_initial_actions_eq cls self :
  execute_initial_actions cls self =
    for_each (_get_action_methods cls "initial") (fire cls self INITIAL).
Proof. reflexivity. Qed.

Lemma execute_ending_actions_eq cls self :
  execute_ending_actions cls self =
    for_each (_get_action_methods cls "ending") (fire cls self ENDING).
Proof. reflexivity. Qed.

Lemma execute_delayed_actions_eq cls self :
  execute_delayed_actions cls self =
    (triggered <- get_triggered_delayed_actions cls self ;;
     for_each triggered (fire cls self DELAYED)).
Proof. reflexivity. Qed.

Lemma execute_recurring_actions_eq cls self :
  execute_recurring_actions cls self =
    (triggered <- get_triggered_recurring_actions cls self ;;
     for_each triggered (fire cls self RECURRING)).
Proof. reflexivity. Qed.

(** ** The registry: [inspect.getmembers] *)

Lemma name_lt_trans a b c : name_lt a b -> name_lt b c -> name_lt a c.
Proof.
  unfold name_lt. intros H1 H2.
  exact (RelationClasses.StrictOrder_Transitive _ _ _ H1 H2).
Qed.

Lemma name_lt_irrefl a b : name_lt a b -> __name__ a <> __name__ b.
Proof.
  unfold name_lt. intros H E. rewrite E in H.
  exact (RelationClasses.StrictOrder_Irreflexive _ H).
Qed.

Lemma setattr_in m ms y : In y (setattr m ms) -> y = m \/ In y ms.
Proof.
  induction ms as [|x xs IH]; simpl.
  - intros [<-|[]]; auto.
  - destruct (String_as_OT.compare (__name__ m) (__name__ x)); simpl.
    + intros [<-|H]; auto.
    + intros [<-|H]; auto.
    + intros [<-|H]; auto. destruct (IH H); auto.
Qed.

Lemma setattr_sorted m ms :
  StronglySorted name_lt ms -> StronglySorted name_lt (setattr m ms).
Proof.
  induction ms as [|x xs IH]; simpl; intros H.
  - repeat constructor.
  - inversion H as [|? ? Hs Hf]; subst.
    destruct (String_as_OT.compare_spec (__name__ m) (__name__ x)) as [E|L|G].
    + constructor; [exact Hs|].
      eapply Forall_impl; [|exact Hf].
      intros y Hy. unfold name_lt in *. rewrite E. exact Hy.
    + constructor; [exact H|]. constructor; [exact L|].
      eapply Forall_impl; [|exact Hf].
      intros y Hy. eapply name_lt_trans; [exact L|exact Hy].
    + constructor; [apply IH; exact Hs|].
      apply Forall_forall. intros y Hy.
      destruct (setattr_in _ _ _ Hy) as [->|Hin]; [exact G|].
      rewrite Forall_forall in Hf. auto.
Qed.

Lemma namespace_sorted ds ns :
  StronglySorted name_lt ns ->
  StronglySorted name_lt (fold_left (fun ns m => setattr m ns) ds ns).
Proof.
  revert ns; induction ds as [|d ds IH]; simpl; intros ns H; auto.
  apply IH, setattr_sorted, H.
Qed.

Lemma filter_sorted {A} (R : A -> A -> Prop) f l :
  StronglySorted R l -> StronglySorted R (filter f l).
Proof.
  induction 1 as [|x l Hs IH Hf]; simpl; [constructor|].
  destruct (f x); [|exact IH].
  constructor; [exact IH|].
  apply Forall_forall. intros y Hy. apply filter_In in Hy.
  rewrite Forall_forall in Hf. apply Hf, Hy.
Qed.

Lemma _get_action_methods_sorted cls ty :
  StronglySorted name_lt (_get_action_methods cls ty).
Proof.
  unfold _get_action_methods, getmembers.
  do 2 apply filter_sorted. apply namespace_sorted. constructor.
Qed.

Lemma sorted_names_NoDup ms :
  StronglySorted name_lt ms -> NoDup (map __name__ ms).
Proof.
  induction 1 as [|x l Hs IH Hf]; simpl; constructor; [|exact IH].
  intros Hin. apply in_map_iff in Hin. destruct Hin as [y [E Hy]].
  rewrite Forall_forall in Hf. apply (name_lt_irrefl _ _ (Hf y Hy)). auto.
Qed.

Lemma _get_action_methods_NoDup cls ty :
  NoDup (map __name__ (_get_action_methods cls ty)).
Proof. apply sorted_names_NoDup, _get_action_methods_sorted. Qed.

Lemma _get_action_methods_tag cls ty m :
  In m (_get_action_methods cls ty) -> _action_type m = Some ty.
Proof.
  unfold _get_action_methods. intros H. apply filter_In in H.
  destruct H as [_ H]. destruct (_action_type m) as [t|]; [|discriminate].
  apply String.eqb_eq in H. congruence.
Qed.

Lemma tag_of_action_type m ty :
  _action_type m = Some ty ->
  exists t, tag m = Some t /\
    match t with
    | initial => ty = "initial"%string
    | delayed _ => ty = "delayed"%string
    | recurring _ => ty = "recurring"%string
    | ending => ty = "ending"%string
    end.
Proof.
  unfold _action_type. destruct (tag m) as [[| | |]|]; intros H;
    inversion H; eexists; split; reflexivity.
Qed.

(** ** The two trigger loops are filters *)

Lemma delayed_loop_spec c ms acc s :
  delayed_loop c ms acc s = (Ok (acc ++ filter (delayed_due s c) ms), s).
Proof.
  revert acc; induction ms as [|m ms IH]; intros acc; simpl.
  - unfold ret. rewrite app_nil_r. reflexivity.
  - unfold bind at 1, Action_objects_filter.
    unfold delayed_due at 1, count_records.
    destruct (List.length _ =? 0)%nat; simpl.
    + unfold bind at 1 2, datetime_now, ret at 1.
      destruct (created c + _action_delay m <=? clock s)%Z.
      * rewrite IH, <- app_assoc. reflexivity.
      * apply IH.
    + unfold bind at 1, ret at 1. apply IH.
Qed.

Lemma recurring_loop_spec c ms acc s :
  recurring_loop c ms acc s = (Ok (acc ++ filter (recurring_due s c) ms), s).
Proof.
  revert acc; induction ms as [|m ms IH]; intros acc; simpl.
  - unfold ret. rewrite app_nil_r. reflexivity.
  - unfold bind at 1, Action_objects_filter.
    unfold bind at 1, datetime_now.
    unfold recurring_due at 1, baseline, count_records.
    destruct (List.length _ =? 0)%nat; simpl.
    + destruct (created c + _action_interval m <=? clock s)%Z.
      * rewrite IH, <- app_assoc. reflexivity.
      * apply IH.
    + destruct (_ <=? clock s)%Z.
      * rewrite IH, <- app_assoc. reflexivity.
      * apply IH.
Qed.

Lemma get_triggered_delayed_found cls self s c :
  open_for s (get_ct cls) (pk self) = [c] ->
  get_triggered_delayed_actions cls self s =
    (Ok (filter (delayed_due s c) (_get_action_methods cls "delayed")), s).
Proof.
  intros H. unfold get_triggered_delayed_actions, get_or_create_condition.
  unfold bind. rewrite (get_or_create_found _ _ _ _ H).
  apply delayed_loop_spec.
Qed.

Lemma get_triggered_recurring_found cls self s c :
  open_for s (get_ct cls) (pk self) = [c] ->
  get_triggered_recurring_actions cls self s =
    (Ok (filter (recurring_due s c) (_get_action_methods cls "recurring")), s).
Proof.
  intros H. unfold get_triggered_recurring_actions, get_or_create_condition.
  unfold bind. rewrite (get_or_create_found _ _ _ _ H).
  apply recurring_loop_spec.
Qed.

(** ** Counting records *)

Lemma is_record_record_of cid n ty c ty' t m :
  is_record cid n ty (record_of c ty' t m) =
    (cond_id c =? cid)%nat && String.eqb (__name__ m) n &&
    ActionType_eqb ty' ty.
Proof. reflexivity. Qed.

Lemma ActionType_eqb_eq a b : ActionType_eqb a b = true <-> a = b.
Proof. destruct a, b; simpl; split; intros H; try discriminate; auto. Qed.

Lemma ActionType_eqb_refl a : ActionType_eqb a a = true.
Proof. destruct a; reflexivity. Qed.

Lemma count_name_NoDup n ms :
  NoDup (map __name__ ms) ->
  List.length (filter (fun m => String.eqb (__name__ m) n) ms) =
    if in_dec string_dec n (map __name__ ms) then 1%nat else 0%nat.
Proof.
  induction ms as [|m ms IH]; simpl; intros H; [reflexivity|].
  inversion H as [|? ? Hn Hd]; subst. specialize (IH Hd).
  destruct (String.eqb_spec (__name__ m) n) as [E|E].
  - subst. simpl. rewrite IH.
    destruct (in_dec string_dec (__name__ m) (map __name__ ms)); [tauto|].
    destruct (string_dec (__name__ m) (__name__ m)); [reflexivity|tauto].
  - rewrite IH. destruct (string_dec (__name__ m) n); [tauto|].
    destruct (in_dec string_dec n (map __name__ ms)); reflexivity.
Qed.

Lemma filter_records_map cid n ty c ty' t ms :
  filter (is_record cid n ty) (map (record_of c ty' t) ms) =
    if (cond_id c =? cid)%nat && ActionType_eqb ty' ty
    then map (record_of c ty' t)
             (filter (fun m => String.eqb (__name__ m) n) ms)
    else [].
Proof.
  induction ms as [|m ms IH]; simpl.
  - destruct (_ && _); reflexivity.
  - rewrite IH, is_record_record_of.
    destruct (cond_id c =? cid)%nat; simpl; [|reflexivity].
    destruct (ActionType_eqb ty' ty); simpl.
    + rewrite andb_true_r. destruct (String.eqb (__name__ m) n); reflexivity.
    + rewrite andb_false_r. reflexivity.
Qed.

Lemma count_records_fired cls self c ty ms s cid n ty' :
  count_records (fired cls self c ty ms s) cid n ty' =
    (count_records s cid n ty' +
     if (cond_id c =? cid)%nat && ActionType_eqb ty ty'
     then List.length (filter (fun m => String.eqb (__name__ m) n) ms)
     else 0)%nat.
Proof.
  unfold count_records, fired; simpl.
  rewrite filter_app, length_app, filter_records_map.
  destruct (_ && _); simpl; [rewrite length_map|]; reflexivity.
Qed.

Lemma count_records_fired_self cls self c ty ms s m :
  NoDup (map __name__ ms) -> In m ms ->
  count_records (fired cls self c ty ms s) (cond_id c) (__name__ m) ty =
    S (count_records s (cond_id c) (__name__ m) ty).
Proof.
  intros Hd Hin. rewrite count_records_fired, Nat.eqb_refl,
    ActionType_eqb_refl; simpl.
  rewrite count_name_NoDup by exact Hd.
  destruct (in_dec string_dec (__name__ m) (map __name__ ms)) as [_|Hn];
    [lia|].
  exfalso; apply Hn, in_map, Hin.
Qed.

Lemma open_for_fired cls self c ty ms s ct oid :
  open_for (fired cls self c ty ms s) ct oid = open_for s ct oid.
Proof. apply open_for_ext; reflexivity. Qed.

(** ** Primary keys *)

Lemma le_max_ids i ids : In i ids -> (i <= fold_right Nat.max 0 ids)%nat.
Proof.
  induction ids as [|j ids IH]; simpl; [tauto|].
  intros [->|H]; [lia|]. specialize (IH H). lia.
Qed.

Lemma next_pk_fresh ids : ~ In (next_pk ids) ids.
Proof.
  unfold next_pk. intros H. apply le_max_ids in H. lia.
Qed.

Lemma open_for_In s ct oid c :
  In c (open_for s ct oid) <->
  In c (conditions s) /\ ended c = None /\
  content_type c = ct /\ object_id c = oid.
Proof.
  unfold open_for, open_conditions. rewrite !filter_In, for_subject_true.
  unfold is_open. destruct (ended c); intuition congruence.
Qed.

(** ** The property [condition] *)

(** C9: reading [self.condition] writes when the subject has no open
    condition: a new row is inserted, open, created now, under a fresh key,
    whatever closed rows the subject has; when the subject has an open
    condition that row is returned and the store is left as it is. *)
Theorem condition_property_writes_on_read cls self s :
  (List.length (open_for s (get_ct cls) (pk self)) <= 1)%nat ->
  exists c s',
    get_or_create_condition cls self s = (Ok c, s') /\
    ended c = None /\ content_type c = get_ct cls /\
    object_id c = pk self /\ In c (conditions s') /\
    (open_for s (get_ct cls) (pk self) = [] ->
       created c = clock s /\
       ~ In (cond_id c) (map cond_id (conditions s)) /\
       conditions s' = conditions s ++ [c] /\
       actions s' = actions s /\ trace s' = trace s) /\
    (open_for s (get_ct cls) (pk self) <> [] ->
       s' = s /\ open_for s (get_ct cls) (pk self) = [c]).
Proof.
  intros Hlen. unfold get_or_create_condition.
  destruct (open_for s (get_ct cls) (pk self)) as [|c [|c2 cs]] eqn:E.
  - exists (new_condition s (get_ct cls) (pk self)),
      (with_condition s (new_condition s (get_ct cls) (pk self))).
    split; [apply get_or_create_missing, E|].
    repeat split; simpl; auto.
    + apply in_or_app; right; left; reflexivity.
    + apply next_pk_fresh.
    + congruence.
    + congruence.
  - exists c, s. split; [apply get_or_create_found, E|].
    assert (Hin : In c (open_for s (get_ct cls) (pk self)))
      by (rewrite E; left; reflexivity).
    apply open_for_In in Hin. destruct Hin as (H1 & H2 & H3 & H4).
    repeat split; auto; discriminate.
  - simpl in Hlen. lia.
Qed.

(** The subject has one closed condition: the read opens a second row. *)
Lemma condition_property_writes_on_read_witness :
  exists c s',
    get_or_create_condition Overdue customer1 store_closed = (Ok c, s') /\
    ended c = None /\ content_type c = get_ct Overdue /\
    object_id c = pk customer1 /\ In c (conditions s') /\
    (open_for store_closed (get_ct Overdue) (pk customer1) = [] ->
       created c = clock store_closed /\
       ~ In (cond_id c) (map cond_id (conditions store_closed)) /\
       conditions s' = conditions store_closed ++ [c] /\
       actions s' = actions store_closed /\ trace s' = trace store_closed) /\
    (open_for store_closed (get_ct Overdue) (pk customer1) <> [] ->
       s' = store_closed /\
       open_for store_closed (get_ct Overdue) (pk customer1) = [c]).
Proof.
  apply (condition_property_writes_on_read Overdue customer1 store_closed).
  vm_compute. lia.
Defined.

(** ** The two query sets of the manager *)

Lemma pk__in_open_ids cls s r :
  pk__in (open_ids cls s) r = true <->
  open_for s (get_ct cls) (pk r) <> [].
Proof.
  unfold pk__in, open_ids. rewrite existsb_exists. split.
  - intros [x [Hin Heq]]. apply Z.eqb_eq in Heq. subst x.
    apply in_map_iff in Hin. destruct Hin as [c [Hc Hin]].
    apply filter_In in Hin. destruct Hin as [Hin Hct].
    intros E.
    assert (Hi : In c (open_for s (get_ct cls) (pk r))).
    { unfold open_for. apply filter_In. split; [exact Hin|].
      unfold for_subject. rewrite Hct, Hc, Z.eqb_refl. reflexivity. }
    rewrite E in Hi. exact Hi.
  - intros H. destruct (open_for s (get_ct cls) (pk r)) as [|c cs] eqn:E;
      [congruence|].
    assert (Hi : In c (open_for s (get_ct cls) (pk r)))
      by (rewrite E; left; reflexivity).
    unfold open_for in Hi. apply filter_In in Hi. destruct Hi as [Hin Hf].
    unfold for_subject in Hf. apply andb_true_iff in Hf.
    destruct Hf as [Hct Hoid]. apply Z.eqb_eq in Hoid.
    exists (pk r). split; [|apply Z.eqb_refl].
    apply in_map_iff. exists c. split; [exact Hoid|].
    apply filter_In. auto.
Qed.

Lemma to_be_created_spec cls q s :
  exists_when cls = Some q ->
  to_be_created cls s =
    (Ok (filter (fun r => negb (pk__in (open_ids cls s) r))
                (filter q (rows cls))), s).
Proof.
  intros H. unfold to_be_created, get_query_set. rewrite H. reflexivity.
Qed.

Lemma to_be_ended_spec cls q s :
  exists_when cls = Some q ->
  to_be_ended cls s =
    (Ok (filter (pk__in (open_ids cls s))
                (filter (fun r => negb (q r)) (rows cls))), s).
Proof.
  intros H. unfold to_be_ended. rewrite H. reflexivity.
Qed.

Lemma to_be_created_unconfigured cls s :
  exists_when cls = None ->
  to_be_created cls s = (Raise NotImplementedError, s).
Proof.
  intros H. unfold to_be_created, get_query_set. rewrite H. reflexivity.
Qed.

Lemma to_be_created_excludes_open cls s l s' r :
  to_be_created cls s = (Ok l, s') -> In r l ->
  open_for s (get_ct cls) (pk r) = [].
Proof.
  destruct (exists_when cls) as [q|] eqn:E.
  - rewrite (to_be_created_spec _ _ _ E). intros H Hin.
    inversion H; subst. apply filter_In in Hin. destruct Hin as [_ Hn].
    destruct (open_for s' (get_ct cls) (pk r)) eqn:Eo; [reflexivity|].
    assert (Hp : pk__in (open_ids cls s') r = true)
      by (apply pk__in_open_ids; congruence).
    rewrite Hp in Hn. discriminate.
  - rewrite (to_be_created_unconfigured _ _ E). discriminate.
Qed.

(** ** Initial actions *)

Lemma create_condition_found cls self s c :
  open_for s (get_ct cls) (pk self) = [c] ->
  create_condition cls self true s =
    (Ok tt, fired cls self c INITIAL (_get_action_methods cls "initial") s).
Proof.
  intros H. unfold create_condition, get_or_create_condition.
  unfold bind. rewrite (get_or_create_found _ _ _ _ H). simpl.
  rewrite execute_initial_actions_eq. apply for_each_fire_found, H.
Qed.

Lemma fire_events_called cls self c ty t ms m :
  In m ms -> In (Called (get_ct cls) (pk self) m)
                (fire_events cls self c ty t ms).
Proof.
  intros H. unfold fire_events. apply in_flat_map. exists m.
  split; [exact H|]. right; left; reflexivity.
Qed.

(** C10: [execute_initial_actions] never looks at the ledger.  For a subject
    with the open condition [c], a call appends one [INITIAL] row per
    initial method, whatever the table already holds, and calls the method;
    [create_condition] called twice appends and calls twice.  The only
    guard is in [to_be_created], which leaves out the subjects that have
    an open condition. *)
Theorem execute_initial_actions_has_no_ledger_check cls self s c :
  open_for s (get_ct cls) (pk self) = [c] ->
  let ms := _get_action_methods cls "initial" in
  let s1 := fired cls self c INITIAL ms s in
  let s2 := fired cls self c INITIAL ms s1 in
  execute_initial_actions cls self s = (Ok tt, s1) /\
  actions s1 = actions s ++ map (record_of c INITIAL (clock s)) ms /\
  (forall m, In m ms ->
     count_records s1 (cond_id c) (__name__ m) INITIAL =
       S (count_records s (cond_id c) (__name__ m) INITIAL) /\
     In (Called (get_ct cls) (pk self) m)
        (fire_events cls self c INITIAL (clock s) ms)) /\
  trace s1 = trace s ++ fire_events cls self c INITIAL (clock s) ms /\
  (create_condition cls self true ;;; create_condition cls self true) s =
    (Ok tt, s2) /\
  (forall m, In m ms ->
     count_records s2 (cond_id c) (__name__ m) INITIAL =
       S (S (count_records s (cond_id c) (__name__ m) INITIAL))) /\
  (forall l s', to_be_created cls s = (Ok l, s') ->
     ~ In (pk self) (map pk l)).
Proof.
  intros H ms s1 s2.
  assert (Hd : NoDup (map __name__ ms)) by apply _get_action_methods_NoDup.
  split; [rewrite execute_initial_actions_eq; apply for_each_fire_found, H|].
  split; [reflexivity|].
  split.
  { intros m Hm. split; [apply count_records_fired_self; auto|].
    apply fire_events_called, Hm. }
  split; [reflexivity|].
  split.
  { unfold bind. rewrite (create_condition_found _ _ _ _ H).
    apply create_condition_found. unfold s1. rewrite open_for_fired.
    exact H. }
  split.
  { intros m Hm. unfold s2.
    rewrite count_records_fired_self by auto.
    unfold s1. rewrite count_records_fired_self by auto. reflexivity. }
  intros l s' Hl Hin. apply in_map_iff in Hin. destruct Hin as [r [Hr Hin]].
  pose proof (to_be_created_excludes_open _ _ _ _ _ Hl Hin) as Ho.
  rewrite Hr, H in Ho. discriminate.
Qed.

(** Customer 1 has an open condition and the initial actions run again. *)
Lemma execute_initial_actions_has_no_ledger_check_witness :
  count_records
    (snd ((create_condition Overdue customer1 true ;;;
           create_condition Overdue customer1 true) (store_open 0)))
    1 "notify_customer" INITIAL = 2%nat.
Proof.
  pose proof (execute_initial_actions_has_no_ledger_check
                Overdue customer1 (store_open 0)
                (mkCondition 1 0%Z None overdue_ct 1%Z) eq_refl) as H.
  cbv zeta in H. destruct H as (_ & _ & _ & _ & H & _).
  rewrite H. vm_compute. reflexivity.
Defined.

(** ** The ledger *)

(** C6 as stated fails: a second [INITIAL] (or [DELAYED]) row of the same
    condition and name is accepted and stored. *)
Lemma ledger_uniqueness_counterexample :
  let c := mkCondition 1 0 None overdue_ct 1 in
  let once ty := snd (Action_objects_create c ty "notify" (store_open 0)) in
  let twice ty := Action_objects_create c ty "notify" (once ty) in
  (count_records (once INITIAL) 1 "notify" INITIAL = 1%nat /\
   fst (twice INITIAL) = Ok (mkAction 0 "notify" 1 INITIAL) /\
   count_records (snd (twice INITIAL)) 1 "notify" INITIAL = 2%nat) /\
  (count_records (once DELAYED) 1 "notify" DELAYED = 1%nat /\
   fst (twice DELAYED) = Ok (mkAction 0 "notify" 1 DELAYED) /\
   count_records (snd (twice DELAYED)) 1 "notify" DELAYED = 2%nat).
Proof. vm_compute. repeat split. Qed.

(** ** The order of the registry *)

Lemma namespace_in ds ns m :
  In m (fold_left (fun ns m => setattr m ns) ds ns) -> In m ns \/ In m ds.
Proof.
  revert ns; induction ds as [|d ds IH]; simpl; intros ns H; auto.
  destruct (IH _ H) as [H1|H1]; auto.
  destruct (setattr_in _ _ _ H1); subst; auto.
Qed.

Lemma _get_action_methods_declared cls ty m :
  In m (_get_action_methods cls ty) -> In m (declared cls ty).
Proof.
  unfold _get_action_methods, getmembers, declared. intros H.
  apply filter_In in H. destruct H as [H Ht].
  apply filter_In in H. destruct H as [H _].
  apply namespace_in in H. destruct H as [[]|H].
  apply filter_In. auto.
Qed.

Lemma execute_delayed_actions_found cls self s c :
  open_for s (get_ct cls) (pk self) = [c] ->
  execute_delayed_actions cls self s =
    (Ok tt, fired cls self c DELAYED
              (filter (delayed_due s c) (_get_action_methods cls "delayed")) s).
Proof.
  intros H. rewrite execute_delayed_actions_eq. unfold bind.
  rewrite (get_triggered_delayed_found _ _ _ _ H).
  apply for_each_fire_found, H.
Qed.

Lemma execute_recurring_actions_found cls self s c :
  open_for s (get_ct cls) (pk self) = [c] ->
  execute_recurring_actions cls self s =
    (Ok tt, fired cls self c RECURRING
              (filter (recurring_due s c)
                      (_get_action_methods cls "recurring")) s).
Proof.
  intros H. rewrite execute_recurring_actions_eq. unfold bind.
  rewrite (get_triggered_recurring_found _ _ _ _ H).
  apply for_each_fire_found, H.
Qed.

(** C7, as amended: the registry returns the tagged methods of a class in
    ascending order of their names (the order of [inspect.getmembers]), each
    of them declared in the class body; for a subject with the open
    condition [c] every [execute_*_actions] method appends its rows and
    calls the methods in that order. *)
Theorem registry_order_is_by_name cls self s c :
  open_for s (get_ct cls) (pk self) = [c] ->
  (forall ty,
     StronglySorted name_lt (_get_action_methods cls ty) /\
     (forall m, In m (_get_action_methods cls ty) -> In m (declared cls ty))) /\
  execute_initial_actions cls self s =
    (Ok tt, fired cls self c INITIAL (_get_action_methods cls "initial") s) /\
  execute_ending_actions cls self s =
    (Ok tt, fired cls self c ENDING (_get_action_methods cls "ending") s) /\
  execute_delayed_actions cls self s =
    (Ok tt, fired cls self c DELAYED
              (filter (delayed_due s c) (_get_action_methods cls "delayed")) s) /\
  execute_recurring_actions cls self s =
    (Ok tt, fired cls self c RECURRING
              (filter (recurring_due s c)
                      (_get_action_methods cls "recurring")) s) /\
  (forall ty ms,
     actions (fired cls self c ty ms s) =
       actions s ++ map (record_of c ty (clock s)) ms /\
     trace (fired cls self c ty ms s) =
       trace s ++ fire_events cls self c ty (clock s) ms).
Proof.
  intros H. split.
  { intros ty. split; [apply _get_action_methods_sorted|].
    apply _get_action_methods_declared. }
  split; [rewrite execute_initial_actions_eq; apply for_each_fire_found, H|].
  split; [rewrite execute_ending_actions_eq; apply for_each_fire_found, H|].
  split; [apply execute_delayed_actions_found, H|].
  split; [apply execute_recurring_actions_found, H|].
  intros ty ms. split; reflexivity.
Qed.

(** [Overdue] declares [notify_customer] before [flag_account]; the rows
    are written in the other order. *)
Lemma registry_order_is_by_name_witness :
  map name
      (actions (snd (execute_initial_actions Overdue customer1 (store_open 0))))
  = ["flag_account"; "notify_customer"]%string.
Proof.
  pose proof (registry_order_is_by_name Overdue customer1 (store_open 0)
                (mkCondition 1 0 None overdue_ct 1) eq_refl) as H.
  destruct H as (_ & H & _). rewrite H. vm_compute. reflexivity.
Defined.

(** C7 as stated fails: the registry does not follow the order of
    declaration. *)
Lemma registry_order_counterexample :
  declared Overdue "initial" =
    [initial_action (def "notify_customer");
     initial_action (def "flag_account")] /\
  _get_action_methods Overdue "initial" =
    [initial_action (def "flag_account");
     initial_action (def "notify_customer")] /\
  actions (snd (execute_initial_actions Overdue customer1 (store_open 0))) =
    [mkAction 0 "flag_account" 1 INITIAL;
     mkAction 0 "notify_customer" 1 INITIAL].
Proof. vm_compute. repeat split. Qed.

(** ** The command *)

Lemma process_unconfigured cls execute s :
  exists_when cls = None ->
  process cls execute s = (Raise NotImplementedError, s).
Proof.
  intros H. unfold process, create_all_conditions, bind.
  rewrite (to_be_created_unconfigured _ _ H). reflexivity.
Qed.

Lemma get_query_set_unconfigured cls s :
  exists_when cls = None ->
  get_query_set cls s = (Raise NotImplementedError, s).
Proof. intros H. unfold get_query_set. rewrite H. reflexivity. Qed.

(** C8, as amended: when a class selected for the run has no
    [exists_when], the exception its manager raises for the missing
    predicate leaves [handle] and ends the run, restricted to one
    application or not.  The classes before it have been processed; the
    class itself and every class after it are not: the outcome is the store
    left by the classes before it, with that exception. *)
Theorem handle_stops_at_unconfigured_class
    subclasses apps app (all_apps no_execute : bool) s l1 bad l2 :
  condition_classes subclasses apps (if all_apps then None else app) s =
    (Ok (l1 ++ bad :: l2), s) ->
  exists_when bad = None ->
  exists e,
    (forall s0, get_query_set bad s0 = (Raise e, s0)) /\
    handle subclasses apps app all_apps no_execute s =
      match for_each l1
              (fun cls => process cls (if no_execute then false else true)) s
      with
      | (Ok _, s') => (Raise e, s')
      | (Raise e', s') => (Raise e', s')
      end.
Proof.
  intros Hl Hbad. exists NotImplementedError.
  split; [intros s0; apply get_query_set_unconfigured, Hbad|].
  unfold handle. unfold bind at 1. rewrite Hl.
  destruct (for_each l1 _ s) as [[[]|e] s'] eqn:F.
  - rewrite (for_each_app _ _ _ _ _ F). simpl. unfold bind.
    rewrite (process_unconfigured _ _ _ Hbad). reflexivity.
  - apply (for_each_app_raise _ _ _ _ _ _ F).
Qed.

(** A run restricted to the application [billing]: [Overdue] is
    processed, then the run ends at [Unconfigured]; the second copy of
    [Overdue] behind it does not matter. *)
Lemma handle_stops_at_unconfigured_class_witness :
  exists e,
    fst (handle [Overdue; Unconfigured; Overdue] ["billing"%string]
                (Some "billing"%string) false false (empty_store 0)) =
      Raise e.
Proof.
  destruct (handle_stops_at_unconfigured_class
              [Overdue; Unconfigured; Overdue] ["billing"%string]
              (Some "billing"%string) false false (empty_store 0)
              [Overdue] Unconfigured [Overdue] eq_refl eq_refl)
    as (e & _ & H).
  exists e. rewrite H. vm_compute. reflexivity.
Defined.

(** C8 as stated fails: [Overdue] comes after the class without predicate
    and is not processed, although alone it opens a condition. *)
Lemma handle_isolation_counterexample :
  handle [Unconfigured; Overdue] [] None false false (empty_store 0) =
    (Raise NotImplementedError, empty_store 0) /\
  conditions (snd (handle [Overdue] [] None false false (empty_store 0))) =
    [mkCondition 1 0 None overdue_ct 1].
Proof. vm_compute. split; reflexivity. Qed.

(** ** Invariants of the engine

    An invariant kept by [get_or_create], by the loop bodies [fire], by
    [execute_delayed_actions], by the [save] that closes the open condition
    of a subject and by a move of the clock is kept by every operation. *)

Lemma hoare_get_or_create (I : Store -> Prop) ct oid :
  preserves I (get_or_create ct oid) ->
  hoare I (get_or_create ct oid)
        (fun c s => I s /\ open_for s ct oid = [c]) (fun _ => I).
Proof.
  intros H s Hs. specialize (H s Hs).
  destruct (get_or_create ct oid s) as [[c|e] s1] eqn:E; [|exact H].
  split; [exact H|]. apply (get_or_create_post _ _ _ _ _ E).
Qed.

Lemma methods_tag_matches cls ty m :
  In m (_get_action_methods cls ty) ->
  (ty = "initial"%string -> tag_matches INITIAL m) /\
  (ty = "delayed"%string -> tag_matches DELAYED m) /\
  (ty = "recurring"%string -> tag_matches RECURRING m) /\
  (ty = "ending"%string -> tag_matches ENDING m).
Proof.
  intros H. apply _get_action_methods_tag, tag_of_action_type in H.
  destruct H as [t [Ht Hty]]. unfold tag_matches.
  destruct t; subst ty; repeat split; intros E; try discriminate;
    eexists; split; try exact Ht; reflexivity.
Qed.

Lemma hoare_get_triggered_delayed (I : Store -> Prop) cls self :
  preserves I (get_or_create_condition cls self) ->
  hoare I (get_triggered_delayed_actions cls self)
        (fun l s => I s /\ incl l (_get_action_methods cls "delayed"))
        (fun _ => I).
Proof.
  intros H s Hs. unfold get_triggered_delayed_actions, bind.
  specialize (H s Hs).
  destruct (get_or_create_condition cls self s) as [[c|e] s1]; [|exact H].
  rewrite delayed_loop_spec. split; [exact H|].
  intros m Hm. simpl in Hm. apply filter_In in Hm. tauto.
Qed.

Lemma hoare_get_triggered_recurring (I : Store -> Prop) cls self :
  preserves I (get_or_create_condition cls self) ->
  hoare I (get_triggered_recurring_actions cls self)
        (fun l s => I s /\ incl l (_get_action_methods cls "recurring"))
        (fun _ => I).
Proof.
  intros H s Hs. unfold get_triggered_recurring_actions, bind.
  specialize (H s Hs).
  destruct (get_or_create_condition cls self s) as [[c|e] s1]; [|exact H].
  rewrite recurring_loop_spec. split; [exact H|].
  intros m Hm. simpl in Hm. apply filter_In in Hm. tauto.
Qed.

Section Engine.
Variable I : Store -> Prop.
Hypothesis Hgc : forall ct oid, preserves I (get_or_create ct oid).
Hypothesis Hfire : forall cls self ty m,
  ty <> DELAYED -> tag_matches ty m -> preserves I (fire cls self ty m).
Hypothesis Hdelayed : forall cls self,
  preserves I (execute_delayed_actions cls self).
Hypothesis Hsave : forall ct oid c t,
  hoare (fun s => I s /\ open_for s ct oid = [c]) (save (set_ended c t))
        (fun _ => I) (fun _ => I).
Hypothesis Hclock : forall t s, I s -> I (set_clock t s).

Lemma execute_initial_actions_preserves cls self :
  preserves I (execute_initial_actions cls self).
Proof.
  rewrite execute_initial_actions_eq. apply preserves_for_each.
  intros m Hm. apply Hfire; [discriminate|].
  apply (methods_tag_matches _ _ _ Hm); reflexivity.
Qed.

Lemma execute_ending_actions_preserves cls self :
  preserves I (execute_ending_actions cls self).
Proof.
  rewrite execute_ending_actions_eq. apply preserves_for_each.
  intros m Hm. apply Hfire; [discriminate|].
  apply (methods_tag_matches _ _ _ Hm); reflexivity.
Qed.

Lemma execute_recurring_actions_preserves cls self :
  preserves I (execute_recurring_actions cls self).
Proof.
  rewrite execute_recurring_actions_eq.
  eapply hoare_bind;
    [apply hoare_get_triggered_recurring, Hgc|].
  intros l s [Hs Hl]. revert s Hs. apply preserves_for_each.
  intros m Hm. apply Hfire; [discriminate|].
  apply (methods_tag_matches _ _ _ (Hl m Hm)); reflexivity.
Qed.

Lemma create_condition_preserves cls self e :
  preserves I (create_condition cls self e).
Proof.
  unfold create_condition. apply preserves_bind; [apply Hgc|].
  intros _. apply preserves_when, execute_initial_actions_preserves.
Qed.

Lemma end_condition_preserves cls self e d :
  preserves I (end_condition cls self e d).
Proof.
  unfold end_condition. apply preserves_bind.
  { apply preserves_when, execute_ending_actions_preserves. }
  intros _. eapply hoare_bind; [apply hoare_get_or_create, Hgc|].
  intros c. eapply hoare_bind with (R := fun _ s =>
    I s /\ open_for s (get_ct cls) (pk self) = [c]).
  - destruct d; [apply hoare_ret; auto|].
    intros s Hs. exact Hs.
  - intros now. apply Hsave.
Qed.

Lemma create_all_conditions_preserves cls e :
  preserves I (create_all_conditions cls e).
Proof.
  unfold create_all_conditions. apply preserves_bind.
  - apply preserves_read. intros s. unfold to_be_created, get_query_set.
    destruct (exists_when cls); reflexivity.
  - intros l. apply preserves_for_each. intros r _.
    apply create_condition_preserves.
Qed.

Lemma end_all_conditions_preserves cls e :
  preserves I (end_all_conditions cls e).
Proof.
  unfold end_all_conditions. apply preserves_bind.
  - apply preserves_read. intros s. unfold to_be_ended.
    destruct (exists_when cls); reflexivity.
  - intros l. apply preserves_for_each. intros r _.
    apply end_condition_preserves.
Qed.

Lemma get_query_set_preserves cls : preserves I (get_query_set cls).
Proof.
  apply preserves_read. intros s. unfold get_query_set.
  destruct (exists_when cls); reflexivity.
Qed.

Lemma process_preserves cls e : preserves I (process cls e).
Proof.
  unfold process. apply preserves_bind;
    [apply create_all_conditions_preserves|].
  intros _. apply preserves_bind; [apply end_all_conditions_preserves|].
  intros _. apply preserves_when.
  unfold execute_all_delayed, execute_all_recurring.
  apply preserves_bind.
  - apply preserves_bind; [apply get_query_set_preserves|].
    intros l. apply preserves_for_each. intros r _. apply Hdelayed.
  - intros _. apply preserves_bind; [apply get_query_set_preserves|].
    intros l. apply preserves_for_each. intros r _.
    apply execute_recurring_actions_preserves.
Qed.

Lemma handle_preserves subs apps app a n :
  preserves I (handle subs apps app a n).
Proof.
  unfold handle. apply preserves_bind.
  - apply preserves_read. intros s. apply condition_classes_read.
  - intros l. apply preserves_for_each. intros cls _.
    apply process_preserves.
Qed.

Lemma run_op_preserves o : preserves I (run_op o).
Proof.
  destruct o; simpl.
  - apply preserves_bind; [apply Hgc|intros; apply preserves_ret].
  - apply create_condition_preserves.
  - apply end_condition_preserves.
  - apply execute_initial_actions_preserves.
  - apply Hdelayed.
  - apply execute_recurring_actions_preserves.
  - apply execute_ending_actions_preserves.
  - apply create_all_conditions_preserves.
  - apply end_all_conditions_preserves.
  - unfold execute_all_delayed.
    apply preserves_bind; [apply get_query_set_preserves|].
    intros l. apply preserves_for_each. intros r _. apply Hdelayed.
  - unfold execute_all_recurring.
    apply preserves_bind; [apply get_query_set_preserves|].
    intros l. apply preserves_for_each. intros r _.
    apply execute_recurring_actions_preserves.
  - apply handle_preserves.
  - intros s Hs. apply Hclock, Hs.
Qed.

Lemma run_ops_preserves os s : I s -> I (run_ops os s).
Proof.
  revert s; induction os as [|o os IH]; simpl; intros s Hs; [exact Hs|].
  apply IH. apply preserves_snd; [apply run_op_preserves|exact Hs].
Qed.
End Engine.

Lemma execute_delayed_from_fire (I : Store -> Prop) :
  (forall ct oid, preserves I (get_or_create ct oid)) ->
  (forall cls self m, tag_matches DELAYED m ->
     preserves I (fire cls self DELAYED m)) ->
  forall cls self, preserves I (execute_delayed_actions cls self).
Proof.
  intros Hgc Hfire cls self. rewrite execute_delayed_actions_eq.
  eapply hoare_bind; [apply hoare_get_triggered_delayed, Hgc|].
  intros l s [Hs Hl]. revert s Hs. apply preserves_for_each.
  intros m Hm. apply Hfire.
  apply (methods_tag_matches _ _ _ (Hl m Hm)); reflexivity.
Qed.

(** The same closure for an invariant every loop body keeps. *)
Lemma run_ops_invariant (I : Store -> Prop) :
  (forall ct oid, preserves I (get_or_create ct oid)) ->
  (forall cls self ty m, tag_matches ty m ->
     preserves I (fire cls self ty m)) ->
  (forall ct oid c t,
     hoare (fun s => I s /\ open_for s ct oid = [c]) (save (set_ended c t))
           (fun _ => I) (fun _ => I)) ->
  (forall t s, I s -> I (set_clock t s)) ->
  forall os s, I s -> I (run_ops os s).
Proof.
  intros Hgc Hfire Hsave Hclock. apply run_ops_preserves; auto.
  apply execute_delayed_from_fire; auto.
Qed.

(** What one round of a loop body does. *)
Lemma fire_spec cls self ty m s :
  fire cls self ty m s =
    match get_or_create (get_ct cls) (pk self) s with
    | (Ok c, s1) => (Ok tt, fired cls self c ty [m] s1)
    | (Raise e, s1) => (Raise e, s1)
    end.
Proof.
  unfold fire, get_or_create_condition, bind.
  destruct (get_or_create (get_ct cls) (pk self) s) as [[c|e] s1];
    [|reflexivity].
  unfold Action_objects_create, call, fired, fire_events. simpl.
  rewrite <- app_assoc. reflexivity.
Qed.

Lemma execute_delayed_actions_spec cls self s :
  execute_delayed_actions cls self s =
    match get_or_create (get_ct cls) (pk self) s with
    | (Ok c, s1) =>
        (Ok tt, fired cls self c DELAYED
                  (filter (delayed_due s1 c)
                          (_get_action_methods cls "delayed")) s1)
    | (Raise e, s1) => (Raise e, s1)
    end.
Proof.
  rewrite execute_delayed_actions_eq.
  unfold get_triggered_delayed_actions, get_or_create_condition, bind.
  destruct (get_or_create (get_ct cls) (pk self) s) as [[c|e] s1] eqn:E;
    [|reflexivity].
  rewrite delayed_loop_spec. simpl.
  apply for_each_fire_found. apply (get_or_create_post _ _ _ _ _ E).
Qed.

Lemma get_or_create_actions ct oid s :
  actions (snd (get_or_create ct oid s)) = actions s /\
  trace (snd (get_or_create ct oid s)) = trace s /\
  clock (snd (get_or_create ct oid s)) = clock s.
Proof.
  unfold get_or_create.
  destruct (filter _ _) as [|c [|c2 cs]]; simpl; auto.
Qed.

(** A property of the two tables that only reads [actions]. *)
Lemma get_or_create_preserves_actions (P : list Action -> Prop) ct oid :
  preserves (fun s => P (actions s)) (get_or_create ct oid).
Proof.
  intros s Hs. pose proof (get_or_create_actions ct oid s) as [H _].
  destruct (get_or_create ct oid s) as [[c|e] s1]; simpl in H;
    rewrite H; exact Hs.
Qed.

(** ** The ledger only grows *)




Lemma count_records_ext s s' cid n ty :
  actions s = actions s' ->
  count_records s cid n ty = count_records s' cid n ty.
Proof. unfold count_records. intros ->. reflexivity. Qed.

Lemma triggered_names_NoDup cls ty f :
  NoDup (map __name__ (filter f (_get_action_methods cls ty))).
Proof.
  apply sorted_names_NoDup, filter_sorted, _get_action_methods_sorted.
Qed.

Lemma NoDup_names_inj ms m m' :
  NoDup (map __name__ ms) -> In m ms -> In m' ms ->
  __name__ m' = __name__ m -> m' = m.
Proof.
  induction ms as [|x xs IH]; simpl; intros Hnd Hm Hm' Hn; [tauto|].
  inversion Hnd as [|? ? Hx Hxs]; subst.
  destruct Hm as [->|Hm], Hm' as [->|Hm']; auto.
  - exfalso. apply Hx. rewrite <- Hn. apply in_map, Hm'.
  - exfalso. apply Hx. rewrite Hn. apply in_map, Hm.
Qed.

(** ** Delayed actions *)

(** At most one [DELAYED] row per (condition, name): kept by every
    operation, because [execute_delayed_actions] writes a row only for a
    name whose count it has just found to be zero. *)
Lemma delayed_at_most_once_run_ops cid n os s :
  (count_records s cid n DELAYED <= 1)%nat ->
  (count_records (run_ops os s) cid n DELAYED <= 1)%nat.
Proof.
  apply run_ops_preserves
    with (I := fun s => (count_records s cid n DELAYED <= 1)%nat).
  - intros ct oid.
    apply (get_or_create_preserves_actions
             (fun l => (List.length (filter (is_record cid n DELAYED) l)
                        <= 1)%nat)).
  - intros cls self ty m Hty _ s1 H1. rewrite fire_spec.
    pose proof (get_or_create_actions (get_ct cls) (pk self) s1) as [H _].
    destruct (get_or_create _ _ s1) as [[c|e] s2]; simpl in H.
    + rewrite count_records_fired.
      replace (ActionType_eqb ty DELAYED) with false
        by (destruct ty; try reflexivity; congruence).
      rewrite andb_false_r, (count_records_ext s2 s1) by exact H. lia.
    + rewrite (count_records_ext s2 s1) by exact H. exact H1.
  - intros cls self s1 H1. rewrite execute_delayed_actions_spec.
    pose proof (get_or_create_actions (get_ct cls) (pk self) s1) as [H _].
    destruct (get_or_create _ _ s1) as [[c|e] s2]; simpl in H.
    + rewrite count_records_fired. simpl.
      rewrite (count_records_ext s2 s1 cid) by exact H.
      destruct (cond_id c =? cid)%nat eqn:Ec; simpl; [|lia].
      apply Nat.eqb_eq in Ec. subst cid.
      rewrite count_name_NoDup by apply triggered_names_NoDup.
      destruct (in_dec string_dec n _) as [Hin|_]; [|lia].
      apply in_map_iff in Hin. destruct Hin as [m [Hn Hm]].
      apply filter_In in Hm. destruct Hm as [_ Hdue].
      unfold delayed_due in Hdue. apply andb_true_iff in Hdue.
      destruct Hdue as [Hc _]. apply Nat.eqb_eq in Hc.
      rewrite Hn, (count_records_ext s2 s1) in Hc by exact H. lia.
    + rewrite (count_records_ext s2 s1) by exact H. exact H1.
  - intros ct oid c t s1 [H1 _]. exact H1.
  - intros t s1 H1. exact H1.
Qed.




(** ** Recurring actions *)

Lemma fold_max_ge l x :
  (x <= fold_left Z.max l x)%Z /\
  (forall y, In y l -> (y <= fold_left Z.max l x)%Z) /\
  (fold_left Z.max l x = x \/ In (fold_left Z.max l x) l).
Proof.
  revert x; induction l as [|z l IH]; simpl; intros x.
  - split; [lia|]. split; [tauto|auto].
  - destruct (IH (Z.max x z)) as (H1 & H2 & H3).
    split; [lia|]. split.
    + intros y [->|Hy]; [lia|auto].
    + destruct H3 as [H3|H3]; [|auto].
      rewrite H3. destruct (Z.max_spec x z) as [[_ ->]|[_ ->]]; auto.
Qed.

Lemma latest_executed_ge qry a :
  In a qry -> (executed a <= latest_executed qry)%Z.
Proof.
  destruct qry as [|b qry]; simpl; [tauto|].
  destruct (fold_max_ge (map executed qry) (executed b)) as (H1 & H2 & _).
  intros [->|H]; [exact H1|]. apply H2, in_map, H.
Qed.


Lemma filter_name_present ms m :
  NoDup (map __name__ ms) -> In m ms ->
  filter (fun x => String.eqb (__name__ x) (__name__ m)) ms = [m].
Proof.
  induction ms as [|x xs IH]; simpl; intros Hnd Hm; [tauto|].
  inversion Hnd as [|? ? Hx Hxs]; subst.
  destruct Hm as [->|Hm].
  - rewrite String.eqb_refl. f_equal.
    clear IH Hnd Hxs. induction xs as [|y ys IH]; simpl; [reflexivity|].
    destruct (String.eqb_spec (__name__ y) (__name__ m)) as [E|E].
    + exfalso. apply Hx. left. exact E.
    + apply IH. intros H. apply Hx. right. exact H.
  - destruct (String.eqb_spec (__name__ x) (__name__ m)) as [E|E].
    + exfalso. apply Hx. rewrite E. apply in_map, Hm.
    + apply IH; assumption.
Qed.

Lemma filter_name_absent ms n :
  ~ In n (map __name__ ms) ->
  filter (fun x => String.eqb (__name__ x) n) ms = [].
Proof.
  induction ms as [|x xs IH]; simpl; intros H; [reflexivity|].
  destruct (String.eqb_spec (__name__ x) n) as [E|E]; [tauto|].
  apply IH. tauto.
Qed.


Lemma baseline_latest s c m :
  filter (is_record (cond_id c) (__name__ m) RECURRING) (actions s) <> [] ->
  baseline s c m =
    latest_executed
      (filter (is_record (cond_id c) (__name__ m) RECURRING) (actions s)).
Proof.
  unfold baseline, count_records. intros H.
  destruct (filter _ _); [congruence|reflexivity].
Qed.



(** ** The table of conditions *)

Lemma fire_preserves_conditions (P : list Condition -> Prop)
    cls self ty m :
  preserves (fun s => P (conditions s))
            (get_or_create (get_ct cls) (pk self)) ->
  preserves (fun s => P (conditions s)) (fire cls self ty m).
Proof.
  intros H s Hs. rewrite fire_spec. specialize (H s Hs).
  destruct (get_or_create _ _ s) as [[c|e] s1]; exact H.
Qed.

(** A property of the table [Condition] kept by [get_or_create] and by the
    [save] that closes a subject's open condition holds after any
    operations. *)
Lemma run_ops_conditions_invariant (P : list Condition -> Prop) :
  (forall ct oid, preserves (fun s => P (conditions s))
                            (get_or_create ct oid)) ->
  (forall ct oid c t s,
     P (conditions s) -> open_for s ct oid = [c] ->
     P (conditions (snd (save (set_ended c t) s)))) ->
  forall os s, P (conditions s) -> P (conditions (run_ops os s)).
Proof.
  intros Hgc Hsave.
  apply run_ops_invariant with (I := fun s => P (conditions s)).
  - exact Hgc.
  - intros cls self ty m _. apply fire_preserves_conditions, Hgc.
  - intros ct oid c t s [Hs Ho]. apply (Hsave ct oid c t s Hs Ho).
  - intros t s Hs. exact Hs.
Qed.

Lemma open_for_save_closed c t s ct oid :
  open_for (snd (save (set_ended c t) s)) ct oid =
    filter (fun r => negb (cond_id r =? cond_id c)%nat) (open_for s ct oid).
Proof.
  unfold open_for, open_conditions, save; cbn [snd conditions].
  change (cond_id (set_ended c t)) with (cond_id c).
  induction (conditions s) as [|r l IH]; [reflexivity|].
  cbn [map filter].
  destruct (cond_id r =? cond_id c)%nat eqn:E.
  - change (is_open (set_ended c t)) with false. cbv iota.
    etransitivity; [exact IH|].
    destruct (is_open r); [|reflexivity].
    cbn [filter]. destruct (for_subject ct oid r); [|reflexivity].
    cbn [filter]. rewrite E. reflexivity.
  - destruct (is_open r); cbn [filter]; [|exact IH].
    destruct (for_subject ct oid r); cbn [filter]; [|exact IH].
    rewrite E. cbn [negb]. f_equal. exact IH.
Qed.

Lemma save_ids c t s :
  map cond_id (conditions (snd (save (set_ended c t) s))) =
    map cond_id (conditions s).
Proof.
  unfold save; simpl. rewrite map_map. apply map_ext_in.
  intros r _. destruct (cond_id r =? cond_id c)%nat eqn:E; [|reflexivity].
  apply Nat.eqb_eq in E. simpl. auto.
Qed.

Lemma NoDup_ids_inj l (x y : Condition) :
  NoDup (map cond_id l) -> In x l -> In y l -> cond_id x = cond_id y ->
  x = y.
Proof.
  induction l as [|z l IH]; simpl; intros Hnd Hx Hy E; [tauto|].
  inversion Hnd as [|? ? Hz Hl]; subst.
  destruct Hx as [->|Hx], Hy as [->|Hy]; auto.
  - exfalso. apply Hz. rewrite E. apply in_map, Hy.
  - exfalso. apply Hz. rewrite <- E. apply in_map, Hx.
Qed.

Lemma at_most_one_open_get_or_create ct oid :
  preserves at_most_one_open (get_or_create ct oid).
Proof.
  intros s Hs.
  destruct (open_for s ct oid) as [|c [|c2 cs]] eqn:E.
  - rewrite (get_or_create_missing _ _ _ E).
    intros ct' oid'. rewrite open_for_with_condition, length_app. simpl.
    destruct (for_subject ct' oid' (new_condition s ct oid)) eqn:F; simpl.
    + apply for_subject_new in F. destruct F; subst. rewrite E. simpl. lia.
    + specialize (Hs ct' oid'). lia.
  - rewrite (get_or_create_found _ _ _ _ E). exact Hs.
  - rewrite (get_or_create_many _ _ _ _ _ _ E). exact Hs.
Qed.

Lemma at_most_one_open_run_ops os s :
  at_most_one_open s -> at_most_one_open (run_ops os s).
Proof.
  set (P := fun l => forall ct oid,
              (List.length (filter (for_subject ct oid) (filter is_open l))
               <= 1)%nat).
  change (P (conditions s) -> P (conditions (run_ops os s))).
  apply run_ops_conditions_invariant; subst P; cbv beta.
  - exact at_most_one_open_get_or_create.
  - intros ct oid c t s1 Hs _ ct' oid'.
    pose proof (open_for_save_closed c t s1 ct' oid') as E.
    unfold open_for, open_conditions in E. rewrite E.
    eapply Nat.le_trans; [apply filter_length_le|apply Hs].
Qed.

Lemma ids_unique_get_or_create ct oid :
  preserves ids_unique (get_or_create ct oid).
Proof.
  intros s Hs.
  destruct (open_for s ct oid) as [|c [|c2 cs]] eqn:E.
  - rewrite (get_or_create_missing _ _ _ E).
    unfold ids_unique, with_condition; simpl. rewrite map_app. simpl.
    apply NoDup_app; [exact Hs|repeat constructor; simpl; tauto|].
    intros a Ha [<-|[]]. exact (next_pk_fresh _ Ha).
  - rewrite (get_or_create_found _ _ _ _ E). exact Hs.
  - rewrite (get_or_create_many _ _ _ _ _ _ E). exact Hs.
Qed.


(** A closed row stays in the table as it is. *)
Lemma closed_retained_run_ops c os s :
  ended c <> None -> ids_unique s -> In c (conditions s) ->
  In c (conditions (run_ops os s)).
Proof.
  intros Hc Hu Hin.
  set (P := fun l => NoDup (map cond_id l) /\ In c l).
  assert (H : P (conditions (run_ops os s))); [|apply H].
  apply run_ops_conditions_invariant; subst P; cbv beta; [| |auto].
  - intros ct oid s1 [H1 H2].
    pose proof (ids_unique_get_or_create ct oid s1 H1) as H.
    destruct (open_for s1 ct oid) as [|c1 [|c2 cs]] eqn:E.
    + rewrite (get_or_create_missing _ _ _ E) in *.
      split; [exact H|]. simpl. apply in_or_app; left; exact H2.
    + rewrite (get_or_create_found _ _ _ _ E) in *. auto.
    + rewrite (get_or_create_many _ _ _ _ _ _ E) in *. auto.
  - intros ct oid c0 t s1 [H1 H2] Ho.
    split; [rewrite save_ids; exact H1|].
    assert (H0 : In c0 (open_for s1 ct oid)) by (rewrite Ho; left; auto).
    apply open_for_In in H0. destruct H0 as (H0 & He & _).
    unfold save; simpl. apply in_map_iff. exists c. split; [|exact H2].
    destruct (cond_id c =? cond_id c0)%nat eqn:E; [|reflexivity].
    apply Nat.eqb_eq in E.
    rewrite (NoDup_ids_inj _ _ _ H1 H2 H0 E) in Hc. congruence.
Qed.

(** [end_condition] for a subject whose open condition is [c]. *)
Lemma end_condition_found cls self e d s c :
  open_for s (get_ct cls) (pk self) = [c] ->
  end_condition cls self e d s =
    (Ok tt,
     snd (save (set_ended c (match d with Some x => x | None => clock s end))
               (if e then fired cls self c ENDING
                           (_get_action_methods cls "ending") s
                else s))).
Proof.
  intros H. unfold end_condition. unfold bind at 1.
  assert (E : when e (execute_ending_actions cls self) s =
              (Ok tt, if e then fired cls self c ENDING
                                 (_get_action_methods cls "ending") s
                      else s)).
  { destruct e; simpl; [|reflexivity].
    rewrite execute_ending_actions_eq. apply for_each_fire_found, H. }
  rewrite E. unfold get_or_create_condition. unfold bind at 1.
  rewrite (get_or_create_found _ _ _ c)
    by (destruct e; [rewrite open_for_fired|]; exact H).
  unfold bind. destruct d; simpl; destruct e; reflexivity.
Qed.

(** C3: every operation of the engine keeps at most one open condition per
    (content type, subject); the closed rows stay in the table; and after
    the open condition of a subject has been ended, the next read of
    [condition] opens a new row for the same subject, next to the closed
    one. *)
Theorem at_most_one_open_condition os s :
  at_most_one_open s -> ids_unique s ->
  at_most_one_open (run_ops os s) /\
  (forall c, In c (conditions s) -> ended c <> None ->
     In c (conditions (run_ops os s))) /\
  (forall cls self e d c,
     open_for s (get_ct cls) (pk self) = [c] ->
     exists t c' s1,
       (end_condition cls self e d ;;; get_or_create_condition cls self) s =
         (Ok c', s1) /\
       In (set_ended c t) (conditions s1) /\
       In c' (conditions s1) /\ ended c' = None /\
       cond_id c' <> cond_id c /\
       open_for s1 (get_ct cls) (pk self) = [c'] /\
       at_most_one_open s1).
Proof.
  intros Hone Hu.
  split; [apply at_most_one_open_run_ops, Hone|].
  split; [intros c Hin Hc; apply closed_retained_run_ops; assumption|].
  intros cls self e d c Ho.
  set (t := match d with Some x => x | None => clock s end).
  set (s0 := if e then fired cls self c ENDING
                        (_get_action_methods cls "ending") s else s).
  set (s1 := snd (save (set_ended c t) s0)).
  set (c' := new_condition s1 (get_ct cls) (pk self)).
  assert (Hc0 : conditions s0 = conditions s) by (destruct e; reflexivity).
  assert (Ho0 : open_for s0 (get_ct cls) (pk self) = [c])
    by (rewrite (open_for_ext s0 s _ _ Hc0); exact Ho).
  assert (Hin : In c (conditions s)).
  { assert (H : In c (open_for s (get_ct cls) (pk self)))
      by (rewrite Ho; left; reflexivity).
    apply open_for_In in H. tauto. }
  assert (Ho1 : open_for s1 (get_ct cls) (pk self) = []).
  { unfold s1. rewrite open_for_save_closed, Ho0. simpl.
    rewrite Nat.eqb_refl. reflexivity. }
  assert (Hclosed : In (set_ended c t) (conditions s1)).
  { unfold s1, save; simpl. rewrite Hc0. apply in_map_iff.
    exists c. rewrite Nat.eqb_refl. auto. }
  exists t, c', (with_condition s1 c').
  split.
  { unfold bind. rewrite (end_condition_found _ _ _ _ _ _ Ho).
    apply get_or_create_missing, Ho1. }
  split; [simpl; apply in_or_app; left; exact Hclosed|].
  split; [simpl; apply in_or_app; right; left; reflexivity|].
  split; [reflexivity|].
  split.
  { intros E. apply (next_pk_fresh (map cond_id (conditions s1))).
    change (next_pk (map cond_id (conditions s1))) with (cond_id c').
    rewrite E. change (cond_id c) with (cond_id (set_ended c t)).
    apply in_map, Hclosed. }
  split; [apply open_for_created, Ho1|].
  assert (H1 : at_most_one_open s1).
  { pose proof (at_most_one_open_run_ops
                  [OpEndCondition cls self e d] s Hone) as H.
    change (at_most_one_open (snd (end_condition cls self e d s))) in H.
    rewrite (end_condition_found _ _ _ _ _ _ Ho) in H. exact H. }
  pose proof (at_most_one_open_get_or_create (get_ct cls) (pk self) s1 H1)
    as H. rewrite (get_or_create_missing _ _ _ Ho1) in H. exact H.
Qed.

(** Two runs of the command from the empty database, the second after
    customer 1 has been overdue for four days. *)
Lemma at_most_one_open_condition_witness :
  at_most_one_open
    (run_ops [OpHandle [Overdue] [] None false false; OpClock (4 * day);
              OpHandle [Overdue] [] None false false] (empty_store 0)).
Proof.
  assert (H1 : at_most_one_open (empty_store 0))
    by (intros ct oid; simpl; lia).
  assert (H2 : ids_unique (empty_store 0)) by constructor.
  destruct (at_most_one_open_condition
              [OpHandle [Overdue] [] None false false; OpClock (4 * day);
               OpHandle [Overdue] [] None false false] (empty_store 0)
              H1 H2) as [H _].
  exact H.
Defined.

(** ** Write, then execute *)

Lemma app_snoc_split {A} (l pre post : list A) x y :
  l ++ [x] = pre ++ y :: post ->
  (post = [] /\ pre = l /\ y = x) \/
  (exists post', post = post' ++ [x] /\ l = pre ++ y :: post').
Proof.
  intros H. induction post as [|z post _] using rev_ind.
  - left. apply app_inj_tail in H. destruct H as [-> ->]. auto.
  - right. exists post. rewrite app_comm_cons, app_assoc in H.
    apply app_inj_tail in H. destruct H as [-> ->]. auto.
Qed.

Lemma corresponds_mono s s' ct subject m a :
  (forall x, In x (actions s) -> In x (actions s')) ->
  (forall c, In c (conditions s) ->
     exists c', In c' (conditions s') /\ cond_id c' = cond_id c /\
                content_type c' = content_type c /\
                object_id c' = object_id c) ->
  corresponds s ct subject m a -> corresponds s' ct subject m a.
Proof.
  intros Ha Hc (H1 & H2 & H3 & c & H4 & H5 & H6 & H7).
  split; [auto|]. split; [auto|]. split; [auto|].
  destruct (Hc c H4) as (c' & K1 & K2 & K3 & K4).
  exists c'. repeat split; congruence.
Qed.

Lemma record_before_call_same_trace s s' :
  trace s' = trace s ->
  (forall x, In x (actions s) -> In x (actions s')) ->
  (forall c, In c (conditions s) ->
     exists c', In c' (conditions s') /\ cond_id c' = cond_id c /\
                content_type c' = content_type c /\
                object_id c' = object_id c) ->
  record_before_call s -> record_before_call s'.
Proof.
  intros Ht Ha Hc H pre post ct subject m E. rewrite Ht in E.
  destruct (H _ _ _ _ _ E) as (pre' & a & E1 & E2).
  exists pre', a. split; [exact E1|].
  apply (corresponds_mono s s'); assumption.
Qed.

Lemma record_before_call_fired cls self c ty m s :
  tag_matches ty m ->
  open_for s (get_ct cls) (pk self) = [c] ->
  record_before_call s ->
  record_before_call (fired cls self c ty [m] s).
Proof.
  intros Htag Ho H pre post ct subject m' E.
  assert (Hmono : forall a, corresponds s ct subject m' a ->
            corresponds (fired cls self c ty [m] s) ct subject m' a).
  { intros a. apply corresponds_mono.
    - intros x Hx. simpl. apply in_or_app; left; exact Hx.
    - intros c0 Hc0. exists c0. auto. }
  unfold fired, fire_events in E. simpl in E.
  change (trace s ++ [Saved (record_of c ty (clock s) m);
                      Called (get_ct cls) (pk self) m])
    with (trace s ++ [Saved (record_of c ty (clock s) m)] ++
                     [Called (get_ct cls) (pk self) m]) in E.
  rewrite app_assoc in E.
  apply app_snoc_split in E. destruct E as [(E1 & E2 & E3)|(post' & E1 & E2)].
  - exists (trace s), (record_of c ty (clock s) m).
    split; [exact E2|]. inversion E3; subst.
    split; [simpl; apply in_or_app; right; left; reflexivity|].
    split; [reflexivity|]. split; [exact Htag|].
    assert (Hin : In c (open_for s (get_ct cls) (pk self)))
      by (rewrite Ho; left; reflexivity).
    apply open_for_In in Hin. destruct Hin as (K1 & _ & K2 & K3).
    exists c. auto.
  - apply app_snoc_split in E2.
    destruct E2 as [(_ & _ & E3)|(post'' & E3 & E4)]; [discriminate|].
    destruct (H _ _ _ _ _ E4) as (pre' & a & K1 & K2).
    exists pre', a. auto.
Qed.

Lemma record_before_call_run_ops os s :
  ids_unique s -> record_before_call s ->
  record_before_call (run_ops os s).
Proof.
  intros Hu Hr.
  assert (H : ids_unique (run_ops os s) /\ record_before_call (run_ops os s));
    [|apply H].
  apply run_ops_invariant
    with (I := fun s => ids_unique s /\ record_before_call s); [| | | |auto].
  - intros ct oid s1 [H1 H2].
    pose proof (ids_unique_get_or_create ct oid s1 H1) as H.
    destruct (open_for s1 ct oid) as [|c1 [|c2 cs]] eqn:E.
    + rewrite (get_or_create_missing _ _ _ E) in *.
      split; [exact H|].
      apply (record_before_call_same_trace s1); auto.
      intros c Hc. exists c. simpl. split; [apply in_or_app; auto|auto].
    + rewrite (get_or_create_found _ _ _ _ E) in *. auto.
    + rewrite (get_or_create_many _ _ _ _ _ _ E) in *. auto.
  - intros cls self ty m Htag s1 [H1 H2]. rewrite fire_spec.
    pose proof (ids_unique_get_or_create (get_ct cls) (pk self) s1 H1) as H.
    destruct (get_or_create _ _ s1) as [[c|e] s2] eqn:E.
    + split; [exact H|].
      destruct (get_or_create_post _ _ _ _ _ E) as [Ho Hs].
      apply record_before_call_fired; [exact Htag|exact Ho|].
      destruct Hs as [->|(_ & _ & ->)]; [exact H2|].
      apply (record_before_call_same_trace s1); auto.
      intros c0 Hc. exists c0. simpl. split; [apply in_or_app; auto|auto].
    + split; [exact H|].
      destruct (open_for s1 (get_ct cls) (pk self)) as [|c1 [|c2 cs]] eqn:F.
      * rewrite (get_or_create_missing _ _ _ F) in E. discriminate.
      * rewrite (get_or_create_found _ _ _ _ F) in E. discriminate.
      * rewrite (get_or_create_many _ _ _ _ _ _ F) in E.
        inversion E; subst. exact H2.
  - intros ct oid c t s1 [[H1 H2] Ho].
    change (ids_unique (snd (save (set_ended c t) s1)) /\
            record_before_call (snd (save (set_ended c t) s1))).
    split; [unfold ids_unique; rewrite save_ids; exact H1|].
    apply (record_before_call_same_trace s1); auto.
    intros c0 Hc0.
    assert (H0 : In c (open_for s1 ct oid)) by (rewrite Ho; left; auto).
    apply open_for_In in H0. destruct H0 as (H0 & _).
    exists (if (cond_id c0 =? cond_id c)%nat then set_ended c t else c0).
    split.
    { unfold save; simpl. apply in_map_iff. exists c0. auto. }
    destruct (cond_id c0 =? cond_id c)%nat eqn:E; [|auto].
    apply Nat.eqb_eq in E.
    rewrite (NoDup_ids_inj _ _ _ H1 Hc0 H0 E). auto.
  - intros t s1 [H1 H2]. split; [exact H1|].
    apply (record_before_call_same_trace s1); auto.
    intros c Hc. exists c. auto.
Qed.

(** C5: in every state the engine reaches, whatever prefix of the trace
    ends in the call of an action method, the event just before the call is
    the insertion of the [Action] row of that call (same name, same trigger
    class, a condition of the same subject), and the row is in the table.
    The four loops run the same body: [Action.objects.create], then the
    call. *)
Theorem record_precedes_invocation os s :
  ids_unique s -> record_before_call s ->
  record_before_call (run_ops os s) /\
  (forall cls self,
     execute_initial_actions cls self =
       for_each (_get_action_methods cls "initial") (fire cls self INITIAL) /\
     execute_ending_actions cls self =
       for_each (_get_action_methods cls "ending") (fire cls self ENDING) /\
     execute_delayed_actions cls self =
       (triggered <- get_triggered_delayed_actions cls self ;;
        for_each triggered (fire cls self DELAYED)) /\
     execute_recurring_actions cls self =
       (triggered <- get_triggered_recurring_actions cls self ;;
        for_each triggered (fire cls self RECURRING))) /\
  (forall cls self ty m s0 c s1,
     get_or_create_condition cls self s0 = (Ok c, s1) ->
     let a := record_of c ty (clock s1) m in
     let s2 := snd (Action_objects_create c ty (__name__ m) s1) in
     In a (actions s2) /\ fire cls self ty m s0 = call cls self m s2).
Proof.
  intros Hu Hr.
  split; [apply record_before_call_run_ops; assumption|].
  split; [intros cls self; repeat split|].
  intros cls self ty m s0 c s1 E a s2. split.
  - unfold s2, a. simpl. apply in_or_app; right; left; reflexivity.
  - unfold fire, bind. rewrite E. reflexivity.
Qed.

(** The trace of two runs of the command from the empty database. *)
Lemma record_precedes_invocation_witness :
  record_before_call
    (run_ops [OpHandle [Overdue] [] None false false; OpClock (4 * day);
              OpHandle [Overdue] [] None false false] (empty_store 0)).
Proof.
  assert (H1 : ids_unique (empty_store 0)) by constructor.
  assert (H2 : record_before_call (empty_store 0))
    by (intros [|x pre] post ct subject m E; discriminate).
  destruct (record_precedes_invocation
              [OpHandle [Overdue] [] None false false; OpClock (4 * day);
               OpHandle [Overdue] [] None false false] (empty_store 0)
              H1 H2) as [H _].
  exact H.
Defined.

(** ** Reconciliation *)

Lemma NoDup_map_inj {A B} (f : A -> B) l x y :
  NoDup (map f l) -> In x l -> In y l -> f x = f y -> x = y.
Proof.
  induction l as [|z l IH]; simpl; intros Hnd Hx Hy E; [tauto|].
  inversion Hnd as [|? ? Hz Hl]; subst.
  destruct Hx as [->|Hx], Hy as [->|Hy]; auto.
  - exfalso. apply Hz. rewrite E. apply in_map, Hy.
  - exfalso. apply Hz. rewrite <- E. apply in_map, Hx.
Qed.

Lemma NoDup_map_filter {A B} (f : A -> B) g l :
  NoDup (map f l) -> NoDup (map f (filter g l)).
Proof.
  induction l as [|x l IH]; simpl; intros H; [constructor|].
  inversion H as [|? ? Hx Hl]; subst.
  destruct (g x); simpl; [|auto].
  constructor; [|auto].
  intros Hin. apply Hx. apply in_map_iff in Hin.
  destruct Hin as [y [E Hy]]. apply filter_In in Hy.
  rewrite <- E. apply in_map. tauto.
Qed.

Lemma count_zero_fk s i n ty :
  fk_valid s -> ~ In i (map cond_id (conditions s)) ->
  count_records s i n ty = 0%nat.
Proof.
  intros Hfk Hi. unfold count_records.
  destruct (filter _ _) as [|a l] eqn:E; [reflexivity|].
  assert (Ha : In a (filter (is_record i n ty) (actions s)))
    by (rewrite E; left; reflexivity).
  apply filter_In in Ha. destruct Ha as [Ha Hr].
  unfold is_record in Hr. rewrite !andb_true_iff, Nat.eqb_eq in Hr.
  destruct Hr as [[Hr _] _]. subst i. exfalso. apply Hi, Hfk, Ha.
Qed.

Lemma create_condition_missing cls r e s :
  open_for s (get_ct cls) (pk r) = [] ->
  let c := new_condition s (get_ct cls) (pk r) in
  create_condition cls r e s =
    (Ok tt,
     if e then fired cls r c INITIAL (_get_action_methods cls "initial")
                     (with_condition s c)
     else with_condition s c).
Proof.
  intros H c. unfold create_condition, get_or_create_condition.
  unfold bind. rewrite (get_or_create_missing _ _ _ H).
  destruct e; simpl; [|reflexivity].
  rewrite execute_initial_actions_eq. apply for_each_fire_found.
  apply open_for_created, H.
Qed.

Lemma create_loop cls e ids0 l :
  forall s,
  NoDup (map pk l) ->
  (forall r, In r l -> open_for s (get_ct cls) (pk r) = []) ->
  ids_unique s -> fk_valid s -> initial_once cls e ids0 s ->
  exists s',
    for_each l (fun model => create_condition cls model e) s = (Ok tt, s') /\
    ids_unique s' /\ fk_valid s' /\ initial_once cls e ids0 s' /\
    (forall r, In r l -> open_for s' (get_ct cls) (pk r) <> []) /\
    (forall ct' oid', open_for s ct' oid' <> [] ->
       open_for s' ct' oid' = open_for s ct' oid').
Proof.
  induction l as [|r l IH]; intros s Hnd Hno Hu Hfk Hj.
  - exists s. simpl. repeat split; auto.
  - inversion Hnd as [|? ? Hr Hl]; subst.
    assert (Hor : open_for s (get_ct cls) (pk r) = [])
      by (apply Hno; left; reflexivity).
    set (c := new_condition s (get_ct cls) (pk r)).
    set (sc := with_condition s c).
    set (sr := if e then fired cls r c INITIAL
                          (_get_action_methods cls "initial") sc
               else sc).
    assert (Hcr : conditions sr = conditions s ++ [c])
      by (unfold sr; destruct e; reflexivity).
    assert (Hopen : forall ct' oid',
              open_for sr ct' oid' = open_for sc ct' oid')
      by (intros; apply open_for_ext; unfold sr; destruct e; reflexivity).
    assert (Hfresh : ~ In (cond_id c) (map cond_id (conditions s)))
      by apply next_pk_fresh.
    assert (Hu' : ids_unique sr).
    { pose proof (ids_unique_get_or_create (get_ct cls) (pk r) s Hu) as H.
      rewrite (get_or_create_missing _ _ _ Hor) in H.
      unfold ids_unique. rewrite Hcr. exact H. }
    assert (Hfk' : fk_valid sr).
    { intros a Ha. rewrite Hcr, map_app. apply in_or_app.
      unfold sr in Ha. destruct e; simpl in Ha.
      - apply in_app_or in Ha. destruct Ha as [Ha|Ha]; [left; auto|].
        right. apply in_map_iff in Ha. destruct Ha as [m [<- _]].
        left; reflexivity.
      - left; auto. }
    assert (Hj' : initial_once cls e ids0 sr).
    { intros He i Hi Hni m Hm. rewrite Hcr, map_app in Hi.
      unfold sr. rewrite He. rewrite count_records_fired.
      rewrite (count_records_ext sc s) by reflexivity.
      change (ActionType_eqb INITIAL INITIAL) with true.
      rewrite andb_true_r.
      apply in_app_or in Hi. destruct Hi as [Hi|[Hi|[]]].
      - destruct (cond_id c =? i)%nat eqn:E.
        + apply Nat.eqb_eq in E. congruence.
        + rewrite (Hj He i Hi Hni m Hm). lia.
      - rewrite <- Hi, Nat.eqb_refl.
        rewrite (count_zero_fk _ _ _ _ Hfk Hfresh).
        rewrite count_name_NoDup by apply _get_action_methods_NoDup.
        destruct (in_dec string_dec _ _) as [_|Hn]; [reflexivity|].
        exfalso. apply Hn, in_map, Hm. }
    assert (Hno' : forall r', In r' l ->
              open_for sr (get_ct cls) (pk r') = []).
    { intros r' Hr'. rewrite Hopen. unfold sc, c.
      rewrite open_for_created_other; [apply Hno; right; exact Hr'|].
      intros E. inversion E as [Epk]. apply Hr. rewrite Epk.
      apply in_map, Hr'. }
    destruct (IH sr Hl Hno' Hu' Hfk' Hj')
      as (s' & E & K1 & K2 & K3 & K4 & K5).
    exists s'. split.
    { simpl. unfold bind.
      rewrite (create_condition_missing cls r e s Hor). exact E. }
    split; [exact K1|]. split; [exact K2|]. split; [exact K3|].
    assert (Hrc : open_for sr (get_ct cls) (pk r) = [c])
      by (rewrite Hopen; apply open_for_created, Hor).
    split.
    { intros r' [<-|Hr'].
      - rewrite K5; rewrite Hrc; discriminate.
      - apply K4, Hr'. }
    intros ct' oid' Hne.
    assert (Hsame : open_for sr ct' oid' = open_for s ct' oid').
    { rewrite Hopen. unfold sc, c. apply open_for_created_other.
      intros E'. inversion E'; subst. congruence. }
    rewrite K5; rewrite Hsame; auto.
Qed.

Lemma filter_all {A} (f : A -> bool) l :
  (forall x, In x l -> f x = true) -> filter f l = l.
Proof.
  induction l as [|x l IH]; simpl; intros H; [reflexivity|].
  rewrite (H x) by auto. f_equal. apply IH. auto.
Qed.

Lemma filter_none {A} (f : A -> bool) l :
  (forall x, In x l -> f x = false) -> filter f l = [].
Proof.
  induction l as [|x l IH]; simpl; intros H; [reflexivity|].
  rewrite (H x) by auto. apply IH. auto.
Qed.

Lemma open_for_save_closed_other s ct0 oid0 c t ct' oid' :
  ids_unique s -> open_for s ct0 oid0 = [c] ->
  (ct', oid') <> (ct0, oid0) ->
  open_for (snd (save (set_ended c t) s)) ct' oid' = open_for s ct' oid'.
Proof.
  intros Hu Ho Hne. rewrite open_for_save_closed. apply filter_all.
  intros r Hr. apply negb_true_iff, Nat.eqb_neq. intros E.
  assert (Hc : In c (open_for s ct0 oid0)) by (rewrite Ho; left; auto).
  apply open_for_In in Hr. apply open_for_In in Hc.
  destruct Hr as (R1 & _ & R2 & R3), Hc as (C1 & _ & C2 & C3).
  rewrite (NoDup_ids_inj _ _ _ Hu R1 C1 E) in *. congruence.
Qed.

Lemma open_for_single s ct oid :
  at_most_one_open s -> open_for s ct oid <> [] ->
  exists c, open_for s ct oid = [c].
Proof.
  intros H Hne. specialize (H ct oid).
  destruct (open_for s ct oid) as [|c [|c2 cs]]; [congruence|eauto|].
  simpl in H. lia.
Qed.

Lemma end_loop cls e ids0 l :
  forall s,
  NoDup (map pk l) ->
  (forall r, In r l -> open_for s (get_ct cls) (pk r) <> []) ->
  at_most_one_open s -> ids_unique s -> initial_once cls e ids0 s ->
  exists s',
    for_each l (fun model => end_condition cls model e None) s =
      (Ok tt, s') /\
    initial_once cls e ids0 s' /\
    (forall r, In r l -> open_for s' (get_ct cls) (pk r) = []) /\
    (forall oid', ~ In oid' (map pk l) ->
       open_for s' (get_ct cls) oid' = open_for s (get_ct cls) oid') /\
    (forall ct' oid', open_for s ct' oid' = [] ->
       open_for s' ct' oid' = []).
Proof.
  induction l as [|r l IH]; intros s Hnd Hop Hone Hu Hj.
  - exists s. simpl. repeat split; auto. intros r [].
  - inversion Hnd as [|? ? Hr Hl]; subst.
    destruct (open_for_single s (get_ct cls) (pk r) Hone) as [c Hc];
      [apply Hop; left; reflexivity|].
    set (s0 := if e then fired cls r c ENDING
                          (_get_action_methods cls "ending") s else s).
    set (sr := snd (save (set_ended c (clock s)) s0)).
    assert (Hend : end_condition cls r e None s = (Ok tt, sr))
      by exact (end_condition_found cls r e None s c Hc).
    assert (Hc0 : conditions s0 = conditions s)
      by (unfold s0; destruct e; reflexivity).
    assert (Hu0 : ids_unique s0) by (unfold ids_unique; rewrite Hc0; auto).
    assert (Ho0 : forall ct' oid', open_for s0 ct' oid' = open_for s ct' oid')
      by (intros; apply open_for_ext, Hc0).
    assert (Hone' : at_most_one_open sr).
    { pose proof (at_most_one_open_run_ops
                    [OpEndCondition cls r e None] s Hone) as H.
      change (at_most_one_open (snd (end_condition cls r e None s))) in H.
      rewrite Hend in H. exact H. }
    assert (Hu' : ids_unique sr).
    { unfold ids_unique, sr. rewrite save_ids, Hc0. exact Hu. }
    assert (Hj' : initial_once cls e ids0 sr).
    { intros He i Hi Hni m Hm. unfold sr in Hi. rewrite save_ids, Hc0 in Hi.
      rewrite (count_records_ext sr s0) by reflexivity.
      unfold s0. rewrite He, count_records_fired.
      change (ActionType_eqb ENDING INITIAL) with false.
      rewrite andb_false_r, (Hj He i Hi Hni m Hm). lia. }
    assert (Hother : forall oid', oid' <> pk r ->
              open_for sr (get_ct cls) oid' = open_for s (get_ct cls) oid').
    { intros oid' Hne. unfold sr.
      rewrite (open_for_save_closed_other s0 (get_ct cls) (pk r));
        [apply Ho0|exact Hu0|rewrite Ho0; exact Hc|congruence]. }
    assert (Hop' : forall r', In r' l ->
              open_for sr (get_ct cls) (pk r') <> []).
    { intros r' Hr'. rewrite Hother; [apply Hop; right; exact Hr'|].
      intros E. apply Hr. rewrite <- E. apply in_map, Hr'. }
    assert (Hnil : forall ct' oid', open_for s ct' oid' = [] ->
              open_for sr ct' oid' = []).
    { intros ct' oid' E. unfold sr.
      rewrite open_for_save_closed, Ho0, E. reflexivity. }
    assert (Hrnil : open_for sr (get_ct cls) (pk r) = []).
    { unfold sr. rewrite open_for_save_closed, Ho0, Hc. simpl.
      rewrite Nat.eqb_refl. reflexivity. }
    destruct (IH sr Hl Hop' Hone' Hu' Hj') as (s' & E & K1 & K2 & K3 & K4).
    exists s'. split.
    { simpl. unfold bind. rewrite Hend. exact E. }
    split; [exact K1|]. split.
    { intros r' [<-|Hr']; [apply K4, Hrnil|apply K2, Hr']. }
    split.
    { intros oid' Hni. simpl in Hni.
      rewrite K3 by tauto. apply Hother. intros E'. apply Hni. auto. }
    intros ct' oid' E'. apply K4, Hnil, E'.
Qed.

Lemma settled_spec cls q s :
  exists_when cls = Some q ->
  (settled cls s <->
   (forall r, In r (rows cls) -> q r = true ->
      open_for s (get_ct cls) (pk r) <> []) /\
   (forall r, In r (rows cls) -> q r = false ->
      open_for s (get_ct cls) (pk r) = [])).
Proof.
  intros Hq. unfold settled.
  rewrite (to_be_created_spec _ _ _ Hq), (to_be_ended_spec _ _ _ Hq).
  split.
  - intros [H1 H2]. inversion H1 as [E1]. inversion H2 as [E2]. split.
    + intros r Hr Hqr. apply pk__in_open_ids.
      destruct (pk__in (open_ids cls s) r) eqn:E; [reflexivity|].
      assert (Hin : In r (filter (fun r => negb (pk__in (open_ids cls s) r))
                                 (filter q (rows cls)))).
      { apply filter_In. split; [apply filter_In; auto|].
        rewrite E. reflexivity. }
      rewrite E1 in Hin. destruct Hin.
    + intros r Hr Hqr.
      destruct (open_for s (get_ct cls) (pk r)) eqn:E; [reflexivity|].
      assert (Hin : In r (filter (pk__in (open_ids cls s))
                                 (filter (fun r => negb (q r)) (rows cls)))).
      { apply filter_In. split.
        - apply filter_In. rewrite Hqr. auto.
        - apply pk__in_open_ids. congruence. }
      rewrite E2 in Hin. destruct Hin.
  - intros [H1 H2]. split; f_equal; f_equal; apply filter_none.
    + intros r Hr. apply filter_In in Hr. destruct Hr as [Hr Hqr].
      apply negb_false_iff, pk__in_open_ids. auto.
    + intros r Hr. apply filter_In in Hr. destruct Hr as [Hr Hqr].
      apply negb_true_iff in Hqr.
      destruct (pk__in (open_ids cls s) r) eqn:E; [|reflexivity].
      apply pk__in_open_ids in E. exfalso. apply E. auto.
Qed.

Lemma settled_reconcile cls e s :
  settled cls s -> reconcile cls e s = (Ok tt, s).
Proof.
  intros [H1 H2]. unfold reconcile, create_all_conditions,
    end_all_conditions, bind. rewrite H1. simpl. rewrite H2. reflexivity.
Qed.

Lemma settled_set_clock cls q t s :
  exists_when cls = Some q -> settled cls s -> settled cls (set_clock t s).
Proof.
  intros Hq H. apply (settled_spec _ _ _ Hq).
  apply (settled_spec _ _ _ Hq) in H. exact H.
Qed.

Lemma reconcile_again_settled cls q e ts s :
  exists_when cls = Some q -> settled cls s ->
  conditions (reconcile_again cls e ts s) = conditions s /\
  actions (reconcile_again cls e ts s) = actions s /\
  trace (reconcile_again cls e ts s) = trace s.
Proof.
  intros Hq. revert s. induction ts as [|t ts IH]; intros s Hs; simpl; auto.
  pose proof (settled_set_clock _ _ t _ Hq Hs) as Hs'.
  rewrite (settled_reconcile _ e _ Hs'). simpl.
  destruct (IH _ Hs') as (H1 & H2 & H3). auto.
Qed.

(** After one reconciliation from a consistent store nothing is left to
    open or to end. *)
Lemma reconcile_settles cls q e s :
  exists_when cls = Some q ->
  NoDup (map pk (rows cls)) ->
  at_most_one_open s -> ids_unique s -> fk_valid s ->
  exists s1,
    reconcile cls e s = (Ok tt, s1) /\ settled cls s1 /\
    initial_once cls e (map cond_id (conditions s)) s1.
Proof.
  intros Hq Hnd Hone Hu Hfk.
  set (l1 := filter (fun r => negb (pk__in (open_ids cls s) r))
                    (filter q (rows cls))).
  assert (Hj : initial_once cls e (map cond_id (conditions s)) s)
    by (intros _ i Hi Hni; tauto).
  assert (Hno : forall r, In r l1 -> open_for s (get_ct cls) (pk r) = []).
  { intros r Hr.
    apply (to_be_created_excludes_open cls s l1 s r);
      [apply to_be_created_spec, Hq|exact Hr]. }
  destruct (create_loop cls e (map cond_id (conditions s)) l1 s)
    as (s1 & E1 & Hu1 & _ & Hj1 & Hnew & Hkeep); auto.
  { unfold l1. do 2 apply NoDup_map_filter. exact Hnd. }
  assert (Hc1 : create_all_conditions cls e s = (Ok tt, s1)).
  { unfold create_all_conditions, bind.
    rewrite (to_be_created_spec _ _ _ Hq). exact E1. }
  assert (Hone1 : at_most_one_open s1).
  { pose proof (at_most_one_open_run_ops [OpCreateAll cls e] s Hone) as H.
    change (at_most_one_open (snd (create_all_conditions cls e s))) in H.
    rewrite Hc1 in H. exact H. }
  set (l2 := filter (pk__in (open_ids cls s1))
                    (filter (fun r => negb (q r)) (rows cls))).
  destruct (end_loop cls e (map cond_id (conditions s)) l2 s1)
    as (s2 & E2 & Hj2 & Hended & Hrest & Hnil); auto.
  { unfold l2. do 2 apply NoDup_map_filter. exact Hnd. }
  { intros r Hr. unfold l2 in Hr. apply filter_In in Hr.
    apply pk__in_open_ids. tauto. }
  exists s2. split.
  { unfold reconcile, bind. rewrite Hc1.
    unfold end_all_conditions, bind.
    rewrite (to_be_ended_spec _ _ _ Hq). exact E2. }
  split; [|exact Hj2].
  apply (settled_spec _ _ _ Hq). split.
  - intros r Hr Hqr.
    assert (H1 : open_for s1 (get_ct cls) (pk r) <> []).
    { destruct (pk__in (open_ids cls s) r) eqn:E.
      - apply pk__in_open_ids in E. rewrite Hkeep; auto.
      - apply Hnew. unfold l1. apply filter_In.
        split; [apply filter_In; auto|rewrite E; reflexivity]. }
    rewrite Hrest; [exact H1|].
    intros Hin. apply in_map_iff in Hin. destruct Hin as [r2 [Epk Hr2]].
    unfold l2 in Hr2. apply filter_In in Hr2. destruct Hr2 as [Hr2 _].
    apply filter_In in Hr2. destruct Hr2 as [Hr2 Hq2].
    rewrite (NoDup_map_inj pk _ _ _ Hnd Hr2 Hr Epk) in Hq2.
    rewrite Hqr in Hq2. discriminate.
  - intros r Hr Hqr.
    destruct (pk__in (open_ids cls s1) r) eqn:E.
    + apply Hended. unfold l2. apply filter_In.
      split; [apply filter_In; rewrite Hqr; auto|exact E].
    + apply Hnil.
      destruct (open_for s1 (get_ct cls) (pk r)) eqn:Eo; [reflexivity|].
      assert (Ht : pk__in (open_ids cls s1) r = true)
        by (apply pk__in_open_ids; congruence).
      congruence.
Qed.

(** C4: from a consistent store (one open condition per subject at most,
    distinct keys, every [Action] pointing to a condition) and a class
    with a predicate over rows of distinct primary keys, reconciliation
    succeeds; run again, at any later times and any number of times, it
    changes neither [Condition] nor [Action] and calls nothing; and with
    [execute] set every condition the first run created has exactly one
    [INITIAL] row per initial method, however often reconciliation is
    repeated. *)
Theorem reconcile_is_idempotent cls q execute s :
  exists_when cls = Some q ->
  NoDup (map pk (rows cls)) ->
  at_most_one_open s -> ids_unique s -> fk_valid s ->
  exists s1,
    reconcile cls execute s = (Ok tt, s1) /\
    reconcile cls execute s1 = (Ok tt, s1) /\
    (forall ts,
       let sn := reconcile_again cls execute ts s1 in
       conditions sn = conditions s1 /\ actions sn = actions s1 /\
       trace sn = trace s1) /\
    (execute = true ->
     forall c, In c (conditions s1) ->
       ~ In (cond_id c) (map cond_id (conditions s)) ->
     forall m, In m (_get_action_methods cls "initial") ->
     forall ts,
       count_records (reconcile_again cls execute ts s1)
                     (cond_id c) (__name__ m) INITIAL = 1%nat).
Proof.
  intros Hq Hnd Hone Hu Hfk.
  destruct (reconcile_settles cls q execute s Hq Hnd Hone Hu Hfk)
    as (s1 & E & Hs & Hj).
  exists s1. split; [exact E|].
  split; [apply settled_reconcile, Hs|].
  split; [intros ts; apply (reconcile_again_settled _ _ _ _ _ Hq Hs)|].
  intros He c Hc Hnew m Hm ts.
  destruct (reconcile_again_settled cls q execute ts s1 Hq Hs)
    as (_ & Ha & _).
  rewrite (count_records_ext _ s1) by exact Ha.
  apply (Hj He (cond_id c)); [apply in_map, Hc|exact Hnew|exact Hm].
Qed.

(** [Overdue] on the empty database: customer 1 gets a condition and its two
    initial rows; three more reconciliations, days later, add nothing. *)
Lemma reconcile_is_idempotent_witness :
  exists s1,
    reconcile Overdue true (empty_store 0) = (Ok tt, s1) /\
    reconcile Overdue true s1 = (Ok tt, s1) /\
    conditions (reconcile_again Overdue true [day; 2 * day; 9 * day]%Z s1) =
      conditions s1 /\
    actions (reconcile_again Overdue true [day; 2 * day; 9 * day]%Z s1) =
      actions s1.
Proof.
  assert (Hq : exists_when Overdue =
               Some (fun r => (0 <? field "balance" r)%Z)) by reflexivity.
  assert (Hnd : NoDup (map pk (rows Overdue))).
  { simpl. repeat constructor; simpl; intuition discriminate. }
  assert (H1 : at_most_one_open (empty_store 0))
    by (intros ct oid; simpl; lia).
  assert (H2 : ids_unique (empty_store 0)) by constructor.
  assert (H3 : fk_valid (empty_store 0)) by (intros a []).
  destruct (reconcile_is_idempotent Overdue _ true (empty_store 0)
              Hq Hnd H1 H2 H3) as (s1 & E1 & E2 & E3 & _).
  exists s1. split; [exact E1|]. split; [exact E2|].
  destruct (E3 [day; 2 * day; 9 * day]%Z) as (K1 & K2 & _).
  split; [exact K1|exact K2].
Defined.

(** ** Who keeps the ledger free of duplicates *)

Lemma record_again_spec c ty n k :
  forall s,
    record_again c ty n k s =
      (Ok tt,
       mkStore (conditions s)
               (actions s ++ repeat (mkAction (clock s) n (cond_id c) ty) k)
               (clock s)
               (trace s ++
                repeat (Saved (mkAction (clock s) n (cond_id c) ty)) k)).
Proof.
  unfold record_again. induction k as [|k IH]; intros s; simpl.
  - unfold ret. rewrite !app_nil_r, store_eta. reflexivity.
  - unfold bind at 1 2. unfold Action_objects_create at 1, ret at 1.
    rewrite IH. simpl. rewrite <- !app_assoc. reflexivity.
Qed.

Lemma count_repeat cid n ty t k :
  List.length (filter (is_record cid n ty) (repeat (mkAction t n cid ty) k))
  = k.
Proof.
  induction k as [|k IH]; simpl; [reflexivity|].
  unfold is_record at 1. simpl.
  rewrite Nat.eqb_refl, String.eqb_refl, ActionType_eqb_refl. simpl.
  rewrite IH. reflexivity.
Qed.

(** The rows [create_all_conditions] writes belong to the conditions it
    opens: the history of a condition that was in the table does not
    change. *)
Lemma create_loop_old_counts cls e i n ty l :
  forall s s',
  NoDup (map pk l) ->
  (forall r, In r l -> open_for s (get_ct cls) (pk r) = []) ->
  In i (map cond_id (conditions s)) ->
  for_each l (fun model => create_condition cls model e) s = (Ok tt, s') ->
  count_records s' i n ty = count_records s i n ty.
Proof.
  induction l as [|r l IH]; intros s s' Hnd Hno Hi E.
  - simpl in E. inversion E. reflexivity.
  - inversion Hnd as [|? ? Hr Hl]; subst.
    assert (Hor : open_for s (get_ct cls) (pk r) = [])
      by (apply Hno; left; reflexivity).
    set (c := new_condition s (get_ct cls) (pk r)).
    set (sc := with_condition s c).
    set (sr := if e then fired cls r c INITIAL
                          (_get_action_methods cls "initial") sc
               else sc).
    simpl in E. unfold bind in E.
    rewrite (create_condition_missing cls r e s Hor) in E.
    fold c sc sr in E.
    assert (Hfresh : ~ In (cond_id c) (map cond_id (conditions s)))
      by apply next_pk_fresh.
    assert (Hsr : count_records sr i n ty = count_records s i n ty).
    { unfold sr. destruct e; [|reflexivity].
      rewrite count_records_fired.
      rewrite (count_records_ext sc s) by reflexivity.
      destruct (cond_id c =? i)%nat eqn:Ei.
      - apply Nat.eqb_eq in Ei. congruence.
      - simpl. lia. }
    rewrite <- Hsr. apply (IH sr s' Hl); [| |exact E].
    + intros r' Hr'.
      rewrite (open_for_ext sr sc)
        by (unfold sr; destruct e; reflexivity).
      unfold sc, c.
      rewrite open_for_created_other; [apply Hno; right; exact Hr'|].
      intros E'. inversion E' as [Epk]. apply Hr. rewrite Epk.
      apply in_map, Hr'.
    + replace (conditions sr) with (conditions s ++ [c])
        by (unfold sr; destruct e; reflexivity).
      rewrite map_app. apply in_or_app. left. exact Hi.
Qed.

(** C6, as amended: the ledger itself enforces no uniqueness.  For a
    condition of the table, recording is never rejected and never a
    no-operation: [k] calls of [Action.objects.create] leave [k] more rows
    of the same (condition, trigger, name), whatever the table held.  At
    most one [DELAYED] row per (condition, name) is kept by the callers,
    through the count check of [get_triggered_delayed_actions], under every
    operation of the engine; at most one [INITIAL] row is kept by
    [to_be_created]: [create_all_conditions] writes one [INITIAL] row per
    initial method for each condition it opens and none for a condition
    that was in the table. *)
Theorem ledger_enforces_no_uniqueness cls q s :
  exists_when cls = Some q ->
  NoDup (map pk (rows cls)) ->
  at_most_one_open s -> ids_unique s -> fk_valid s ->
  (forall c ty n k, In c (conditions s) ->
     exists s',
       record_again c ty n k s = (Ok tt, s') /\
       count_records s' (cond_id c) n ty =
         (count_records s (cond_id c) n ty + k)%nat /\
       conditions s' = conditions s /\ fk_valid s') /\
  (forall cid n os,
     (count_records s cid n DELAYED <= 1)%nat ->
     (count_records (run_ops os s) cid n DELAYED <= 1)%nat) /\
  (exists s1,
     create_all_conditions cls true s = (Ok tt, s1) /\
     (forall i n, In i (map cond_id (conditions s)) ->
        count_records s1 i n INITIAL = count_records s i n INITIAL) /\
     (forall i m, In i (map cond_id (conditions s1)) ->
        ~ In i (map cond_id (conditions s)) ->
        In m (_get_action_methods cls "initial") ->
        count_records s1 i (__name__ m) INITIAL = 1%nat)).
Proof.
  intros Hq Hnd Hone Hu Hfk.
  split.
  { intros c ty n k Hc. eexists. split; [apply record_again_spec|].
    split.
    - unfold count_records. simpl.
      rewrite filter_app, length_app, count_repeat. reflexivity.
    - split; [reflexivity|].
      intros a Ha. simpl in Ha. apply in_app_or in Ha.
      destruct Ha as [Ha|Ha]; [apply Hfk, Ha|].
      apply repeat_spec in Ha. subst a. simpl. apply in_map, Hc. }
  split; [intros cid n os; apply delayed_at_most_once_run_ops|].
  set (l1 := filter (fun r => negb (pk__in (open_ids cls s) r))
                    (filter q (rows cls))).
  assert (Hl1 : NoDup (map pk l1))
    by (unfold l1; do 2 apply NoDup_map_filter; exact Hnd).
  assert (Hno : forall r, In r l1 -> open_for s (get_ct cls) (pk r) = []).
  { intros r Hr.
    apply (to_be_created_excludes_open cls s l1 s r);
      [apply to_be_created_spec, Hq|exact Hr]. }
  destruct (create_loop cls true (map cond_id (conditions s)) l1 s)
    as (s1 & E1 & _ & _ & Hj & _); auto.
  { intros _ i Hi Hni. tauto. }
  exists s1. split.
  { unfold create_all_conditions, bind.
    rewrite (to_be_created_spec _ _ _ Hq). exact E1. }
  split.
  - intros i n Hi.
    apply (create_loop_old_counts cls true i n INITIAL l1 s s1);
      assumption.
  - intros i m Hi Hni Hm. apply (Hj eq_refl i Hi Hni m Hm).
Qed.

(** The open condition of customer 1 takes the same [INITIAL] row three
    times. *)
Lemma ledger_enforces_no_uniqueness_witness :
  exists s',
    record_again (mkCondition 1 0 None overdue_ct 1) INITIAL
                 "notify_customer" 3 (store_open 0) = (Ok tt, s') /\
    count_records s' 1 "notify_customer" INITIAL = 3%nat.
Proof.
  assert (Hnd : NoDup (map pk (rows Overdue))).
  { simpl. repeat constructor; simpl; intuition discriminate. }
  assert (H1 : at_most_one_open (store_open 0)).
  { intros ct oid. unfold open_for, open_conditions. simpl.
    destruct (for_subject ct oid _); simpl; lia. }
  assert (H2 : ids_unique (store_open 0))
    by (repeat constructor; simpl; tauto).
  assert (H3 : fk_valid (store_open 0)) by (intros a []).
  destruct (ledger_enforces_no_uniqueness
              Overdue (fun r => (0 <? field "balance" r)%Z) (store_open 0)
              eq_refl Hnd H1 H2 H3) as (H & _).
  destruct (H (mkCondition 1 0 None overdue_ct 1) INITIAL
              "notify_customer"%string 3%nat (or_introl eq_refl))
    as (s' & E & Hc & _).
  exists s'. split; [exact E|exact Hc].
Defined.

(** * Further properties of the code *)

(** ** [Command.condition_classes] *)

(** X1: [condition_classes] never writes; it returns a non-empty list of
    classes, in the order of [__subclasses__()]: all classes when no
    application is given ([None] or the empty string, both false in
    [if app:]), else the classes of the application asked for, which is
    installed; in every other case it raises [CommandError]. *)
Theorem condition_classes_nonempty_or_error subclasses apps app s :
  snd (condition_classes subclasses apps app s) = s /\
  condition_classes subclasses apps (Some ""%string) s =
    condition_classes subclasses apps None s /\
  match fst (condition_classes subclasses apps app s) with
  | Ok l =>
      l <> [] /\
      match truthy app with
      | None => l = subclasses
      | Some a =>
          a <> ""%string /\ app = Some a /\ in_list a apps = true /\
          l = filter (fun x => String.eqb (app_label x) a) subclasses /\
          (forall c, In c l -> In c subclasses /\ app_label c = a)
      end
  | Raise e =>
      e = CommandError /\
      match truthy app with
      | None => subclasses = []
      | Some a =>
          in_list a apps = false \/
          (forall c, In c subclasses -> app_label c <> a)
      end
  end.
Proof.
  split; [apply condition_classes_read|].
  split; [reflexivity|].
  assert (Ht : forall a, truthy app = Some a -> a <> ""%string /\ app = Some a).
  { intros a. unfold truthy. destruct app as [x|]; [|discriminate].
    destruct (String.eqb_spec x ""); [discriminate|].
    intros E. inversion E. subst. auto. }
  unfold condition_classes, bind. destruct (truthy app) as [a|].
  - destruct (Ht a eq_refl) as [Ha Happ].
    destruct (in_list a apps) eqn:Ei; simpl.
    + assert (Hall : forall c,
                In c (filter (fun x => String.eqb (app_label x) a)
                             subclasses) <->
                In c subclasses /\ app_label c = a)
        by (intros c; rewrite filter_In, String.eqb_eq; tauto).
      destruct (filter (fun x => String.eqb (app_label x) a) subclasses)
        as [|c l]; simpl.
      * split; [reflexivity|]. right. intros c Hc E.
        apply (proj2 (Hall c)). auto.
      * split; [discriminate|]. split; [exact Ha|]. split; [exact Happ|].
        split; [reflexivity|]. split; [reflexivity|].
        intros c' Hc'. apply Hall, Hc'.
    + split; [reflexivity|]. left; reflexivity.
  - destruct subclasses as [|c l]; simpl.
    + split; reflexivity.
    + split; [discriminate|reflexivity].
Qed.

(** ** [--no-execute] *)

Lemma save_actions c s :
  actions (snd (save c s)) = actions s /\ trace (snd (save c s)) = trace s.
Proof. split; reflexivity. Qed.

Lemma quiet_get_or_create A T ct oid :
  preserves (fun s => actions s = A /\ trace s = T) (get_or_create ct oid).
Proof.
  intros s [H1 H2].
  pose proof (get_or_create_actions ct oid s) as (K1 & K2 & _).
  destruct (get_or_create ct oid s) as [[c|e] s1]; simpl in *;
    split; congruence.
Qed.

Lemma quiet_process A T cls :
  preserves (fun s => actions s = A /\ trace s = T) (process cls false).
Proof.
  unfold process. apply preserves_bind.
  { unfold create_all_conditions. apply preserves_bind.
    - apply preserves_read. intros s. unfold to_be_created, get_query_set.
      destruct (exists_when cls); reflexivity.
    - intros l. apply preserves_for_each. intros r _.
      unfold create_condition. apply preserves_bind.
      + apply quiet_get_or_create.
      + intros _. apply preserves_ret. }
  intros _. apply preserves_bind; [|intros _; apply preserves_ret].
  unfold end_all_conditions. apply preserves_bind.
  - apply preserves_read. intros s. unfold to_be_ended.
    destruct (exists_when cls); reflexivity.
  - intros l. apply preserves_for_each. intros r _.
    unfold end_condition. apply preserves_bind; [apply preserves_ret|].
    intros _. apply preserves_bind; [apply quiet_get_or_create|].
    intros c. apply preserves_bind.
    + apply preserves_read. reflexivity.
    + intros now s Hs. exact Hs.
Qed.

(** X2: with [--no-execute] the command writes no [Action] row and calls
    no action method, whatever it opens or ends. *)
Theorem handle_no_execute_is_silent subclasses apps app all_apps s :
  actions (snd (handle subclasses apps app all_apps true s)) = actions s /\
  trace (snd (handle subclasses apps app all_apps true s)) = trace s.
Proof.
  apply (preserves_snd (fun s' => actions s' = actions s /\
                                  trace s' = trace s));
    [|split; reflexivity].
  unfold handle. apply preserves_bind.
  - apply preserves_read. intros s0. apply condition_classes_read.
  - intros l. apply preserves_for_each. intros cls _.
    apply quiet_process.
Qed.

(** ** The query sets of [ConditionClassManager] *)

(** X3: for a class with a predicate, [to_be_created] is the rows that
    satisfy the predicate and have no open condition, [to_be_ended] the rows
    that do not satisfy it and have one; both read only, and no row is in
    both. *)
Theorem to_be_created_and_to_be_ended_partition cls q s :
  exists_when cls = Some q ->
  exists l1 l2,
    to_be_created cls s = (Ok l1, s) /\
    to_be_ended cls s = (Ok l2, s) /\
    (forall r, In r l1 <->
       In r (rows cls) /\ q r = true /\
       open_for s (get_ct cls) (pk r) = []) /\
    (forall r, In r l2 <->
       In r (rows cls) /\ q r = false /\
       open_for s (get_ct cls) (pk r) <> []) /\
    (forall r, In r l1 -> ~ In r l2).
Proof.
  intros Hq.
  assert (Hnil : forall r,
            negb (pk__in (open_ids cls s) r) = true <->
            open_for s (get_ct cls) (pk r) = []).
  { intros r. rewrite negb_true_iff. split.
    - intros H. destruct (open_for s (get_ct cls) (pk r)) eqn:E;
        [reflexivity|].
      assert (K : pk__in (open_ids cls s) r = true)
        by (apply pk__in_open_ids; congruence).
      congruence.
    - intros H. destruct (pk__in (open_ids cls s) r) eqn:E; [|reflexivity].
      apply pk__in_open_ids in E. congruence. }
  eexists. eexists.
  split; [apply to_be_created_spec, Hq|].
  split; [apply to_be_ended_spec, Hq|].
  assert (H1 : forall r,
    In r (filter (fun r => negb (pk__in (open_ids cls s) r))
                 (filter q (rows cls))) <->
    In r (rows cls) /\ q r = true /\ open_for s (get_ct cls) (pk r) = [])
    by (intros r; rewrite !filter_In, Hnil; tauto).
  assert (H2 : forall r,
    In r (filter (pk__in (open_ids cls s))
                 (filter (fun r => negb (q r)) (rows cls))) <->
    In r (rows cls) /\ q r = false /\
    open_for s (get_ct cls) (pk r) <> [])
    by (intros r; rewrite !filter_In, pk__in_open_ids, negb_true_iff;
        tauto).
  split; [exact H1|]. split; [exact H2|].
  intros r Hr1 Hr2. apply H1 in Hr1. apply H2 in Hr2.
  destruct Hr1 as (_ & K1 & _), Hr2 as (_ & K2 & _). congruence.
Qed.

(** Customer 1 owes money and has no condition: to be created. *)
Lemma to_be_created_and_to_be_ended_partition_witness :
  exists l1 l2,
    to_be_created Overdue (empty_store 0) = (Ok l1, empty_store 0) /\
    to_be_ended Overdue (empty_store 0) = (Ok l2, empty_store 0) /\
    In customer1 l1 /\ ~ In customer1 l2.
Proof.
  destruct (to_be_created_and_to_be_ended_partition
              Overdue (fun r => (0 <? field "balance" r)%Z) (empty_store 0)
              eq_refl) as (l1 & l2 & E1 & E2 & H1 & _ & H3).
  exists l1, l2. split; [exact E1|]. split; [exact E2|].
  assert (Hin : In customer1 l1).
  { apply H1. split; [left; reflexivity|]. split; reflexivity. }
  split; [exact Hin|apply H3, Hin].
Defined.

(** X4: for a class without [exists_when] every class-level operation
    raises [NotImplementedError] and writes nothing; the per-subject read
    of [condition] does not look at the predicate and still works. *)
Theorem unconfigured_class_raises cls s :
  exists_when cls = None ->
  get_query_set cls s = (Raise NotImplementedError, s) /\
  to_be_created cls s = (Raise NotImplementedError, s) /\
  to_be_ended cls s = (Raise NotImplementedError, s) /\
  (forall e, create_all_conditions cls e s = (Raise NotImplementedError, s)) /\
  (forall e, end_all_conditions cls e s = (Raise NotImplementedError, s)) /\
  execute_all_delayed cls s = (Raise NotImplementedError, s) /\
  execute_all_recurring cls s = (Raise NotImplementedError, s) /\
  (forall e, process cls e s = (Raise NotImplementedError, s)) /\
  (forall self, exists c s',
     get_or_create_condition cls self s = (Ok c, s') \/
     get_or_create_condition cls self s = (Raise MultipleObjectsReturned, s)).
Proof.
  intros H.
  assert (H1 : get_query_set cls s = (Raise NotImplementedError, s))
    by (unfold get_query_set; rewrite H; reflexivity).
  assert (H2 : to_be_ended cls s = (Raise NotImplementedError, s))
    by (unfold to_be_ended; rewrite H; reflexivity).
  split; [exact H1|].
  split; [apply to_be_created_unconfigured, H|].
  split; [exact H2|].
  split; [intros e; unfold create_all_conditions, bind;
          rewrite (to_be_created_unconfigured _ _ H); reflexivity|].
  split; [intros e; unfold end_all_conditions, bind; rewrite H2;
          reflexivity|].
  split; [unfold execute_all_delayed, bind; rewrite H1; reflexivity|].
  split; [unfold execute_all_recurring, bind; rewrite H1; reflexivity|].
  split; [intros e; apply process_unconfigured, H|].
  intros self. unfold get_or_create_condition.
  destruct (open_for s (get_ct cls) (pk self)) as [|c1 [|c2 cs]] eqn:E.
  - eexists. eexists. left. apply get_or_create_missing, E.
  - exists c1, s. left. apply get_or_create_found, E.
  - exists c1, s. right. apply (get_or_create_many _ _ _ _ _ _ E).
Qed.

Lemma unconfigured_class_raises_witness :
  execute_all_delayed Unconfigured (empty_store 0) =
    (Raise NotImplementedError, empty_store 0).
Proof.
  destruct (unconfigured_class_raises Unconfigured (empty_store 0) eq_refl)
    as (_ & _ & _ & _ & _ & H & _).
  exact H.
Defined.

(** ** Two open conditions *)

Lemma for_each_fire_many cls self ty ms s c1 c2 cs :
  open_for s (get_ct cls) (pk self) = c1 :: c2 :: cs ->
  for_each ms (fire cls self ty) s =
    match ms with
    | [] => (Ok tt, s)
    | _ :: _ => (Raise MultipleObjectsReturned, s)
    end.
Proof.
  intros H. destruct ms as [|m ms]; [reflexivity|].
  simpl. unfold bind. rewrite fire_spec.
  rewrite (get_or_create_many _ _ _ _ _ _ H). reflexivity.
Qed.

(** X5: when a subject has more than one open condition, reading
    [condition] raises [MultipleObjectsReturned], and so does every
    per-subject operation that reads it: nothing is written.  The two loops
    over untriggered lists read it only when the class has a method of
    their trigger class. *)
Theorem two_open_conditions_raise cls self s c1 c2 cs :
  open_for s (get_ct cls) (pk self) = c1 :: c2 :: cs ->
  let boom {A} : result A * Store := (Raise MultipleObjectsReturned, s) in
  get_or_create_condition cls self s = boom /\
  (forall e, create_condition cls self e s = boom) /\
  get_triggered_delayed_actions cls self s = boom /\
  execute_delayed_actions cls self s = boom /\
  get_triggered_recurring_actions cls self s = boom /\
  execute_recurring_actions cls self s = boom /\
  (forall d, end_condition cls self false d s = boom) /\
  execute_initial_actions cls self s =
    (match _get_action_methods cls "initial" with
     | [] => (Ok tt, s) | _ :: _ => boom end) /\
  execute_ending_actions cls self s =
    (match _get_action_methods cls "ending" with
     | [] => (Ok tt, s) | _ :: _ => boom end) /\
  (forall d, end_condition cls self true d s = boom).
Proof.
  intros H boom.
  assert (G : get_or_create (get_ct cls) (pk self) s =
              (Raise MultipleObjectsReturned, s))
    by apply (get_or_create_many _ _ _ _ _ _ H).
  assert (G' : get_or_create_condition cls self s =
               (Raise MultipleObjectsReturned, s)) by exact G.
  split; [exact G|].
  split; [intros e; unfold create_condition, bind; rewrite G';
          reflexivity|].
  split; [unfold get_triggered_delayed_actions, bind; rewrite G';
          reflexivity|].
  split; [rewrite execute_delayed_actions_spec, G; reflexivity|].
  assert (R : get_triggered_recurring_actions cls self s =
              (Raise MultipleObjectsReturned, s))
    by (unfold get_triggered_recurring_actions, bind; rewrite G';
        reflexivity).
  split; [exact R|].
  split; [rewrite execute_recurring_actions_eq; unfold bind; rewrite R;
          reflexivity|].
  split; [intros d; unfold end_condition, bind; simpl; rewrite G';
          reflexivity|].
  split; [rewrite execute_initial_actions_eq;
          apply (for_each_fire_many _ _ _ _ _ _ _ _ H)|].
  split; [rewrite execute_ending_actions_eq;
          apply (for_each_fire_many _ _ _ _ _ _ _ _ H)|].
  intros d. unfold end_condition, bind. simpl.
  rewrite execute_ending_actions_eq,
    (for_each_fire_many _ _ ENDING (_get_action_methods cls "ending") _ _ _ _ H).
  destruct (_get_action_methods cls "ending"); [|reflexivity].
  rewrite G'. reflexivity.
Qed.

Lemma two_open_conditions_raise_witness :
  end_condition Overdue customer1 true None store_two_open =
    (Raise MultipleObjectsReturned, store_two_open).
Proof.
  destruct (two_open_conditions_raise Overdue customer1 store_two_open
              _ _ _ eq_refl) as (_ & _ & _ & _ & _ & _ & _ & _ & _ & H).
  apply H.
Defined.

(** ** Operations on a subject without an open condition *)

Lemma fired_nil cls self c ty s : fired cls self c ty [] s = s.
Proof.
  unfold fired, fire_events. simpl. rewrite !app_nil_r. apply store_eta.
Qed.

Lemma for_each_fire_missing cls self ty ms s :
  open_for s (get_ct cls) (pk self) = [] ->
  let c := new_condition s (get_ct cls) (pk self) in
  for_each ms (fire cls self ty) s =
    (Ok tt, match ms with
            | [] => s
            | _ :: _ => fired cls self c ty ms (with_condition s c)
            end).
Proof.
  intros H c. destruct ms as [|m ms]; [reflexivity|].
  change (m :: ms) with ([m] ++ ms).
  assert (E : for_each [m] (fire cls self ty) s =
              (Ok tt, fired cls self c ty [m] (with_condition s c))).
  { simpl. unfold bind. rewrite fire_spec.
    rewrite (get_or_create_missing _ _ _ H). reflexivity. }
  rewrite (for_each_app _ _ _ _ _ E).
  rewrite (for_each_fire_found cls self ty c)
    by (rewrite open_for_fired; apply open_for_created, H).
  unfold fired, fire_events. simpl. rewrite <- !app_assoc. reflexivity.
Qed.

Lemma map_replace_fresh c c' l :
  ~ In (cond_id c) (map cond_id l) ->
  map (fun r => if (cond_id r =? cond_id c)%nat then c' else r) l = l.
Proof.
  induction l as [|x l IH]; simpl; intros H; [reflexivity|].
  destruct (cond_id x =? cond_id c)%nat eqn:E.
  - apply Nat.eqb_eq in E. exfalso. apply H. left. exact E.
  - f_equal. apply IH. tauto.
Qed.

Lemma save_new s s' ct oid t :
  conditions s' = conditions s ++ [new_condition s ct oid] ->
  snd (save (set_ended (new_condition s ct oid) t) s') =
    mkStore (conditions s ++ [set_ended (new_condition s ct oid) t])
            (actions s') (clock s') (trace s').
Proof.
  intros H. unfold save. simpl snd. rewrite H, map_app. f_equal.
  rewrite (map_replace_fresh (set_ended (new_condition s ct oid) t))
    by apply next_pk_fresh.
  simpl. rewrite Nat.eqb_refl. reflexivity.
Qed.

(** X6: [end_condition] on a subject that has no open condition does not
    fail: reading [condition] inserts a row, the ending actions are
    recorded on it and called, and the row is closed at once, so the table
    gains one closed condition. *)
Theorem end_condition_without_open_condition cls self (e : bool)
    (d : option datetime) s :
  open_for s (get_ct cls) (pk self) = [] ->
  let c := new_condition s (get_ct cls) (pk self) in
  let t := match d with Some x => x | None => clock s end in
  let ms := if e then _get_action_methods cls "ending" else [] in
  end_condition cls self e d s =
    (Ok tt,
     mkStore (conditions s ++ [set_ended c t])
             (actions s ++ map (record_of c ENDING (clock s)) ms)
             (clock s)
             (trace s ++ fire_events cls self c ENDING (clock s) ms)).
Proof.
  intros H c t ms.
  assert (Tail : forall s0 s',
    get_or_create (get_ct cls) (pk self) s0 = (Ok c, s') ->
    conditions s' = conditions s ++ [c] -> clock s' = clock s ->
    (c0 <- get_or_create_condition cls self ;;
     now <- match d with Some x => ret x | None => datetime_now end ;;
     save (set_ended c0 now)) s0 =
      (Ok tt, mkStore (conditions s ++ [set_ended c t])
                      (actions s') (clock s') (trace s'))).
  { intros s0 s' G Hc Hk. unfold get_or_create_condition.
    unfold bind at 1. rewrite G.
    assert (E : forall x, save (set_ended c x) s' =
                          (Ok tt, snd (save (set_ended c x) s')))
      by reflexivity.
    unfold t. destruct d as [x|]; unfold bind, ret, datetime_now.
    - rewrite E. unfold c. rewrite (save_new s s') by exact Hc. reflexivity.
    - rewrite E. unfold c. rewrite (save_new s s') by exact Hc.
      rewrite Hk. reflexivity. }
  unfold end_condition. unfold bind at 1.
  destruct e; simpl when.
  - rewrite execute_ending_actions_eq, (for_each_fire_missing _ _ _ _ _ H).
    unfold ms. destruct (_get_action_methods cls "ending") as [|m ms'] eqn:E.
    + rewrite (Tail s (with_condition s c));
        [|apply get_or_create_missing, H|reflexivity|reflexivity].
      unfold fire_events. simpl. rewrite !app_nil_r. reflexivity.
    + fold c. rewrite (Tail _ (fired cls self c ENDING (m :: ms')
                                  (with_condition s c)));
        [reflexivity| |reflexivity|reflexivity].
      apply get_or_create_found. rewrite open_for_fired.
      apply open_for_created, H.
  - unfold ret at 1.
    rewrite (Tail s (with_condition s c));
      [|apply get_or_create_missing, H|reflexivity|reflexivity].
    unfold ms, fire_events. simpl. rewrite !app_nil_r. reflexivity.
Qed.

(** Customer 2 owes nothing and never had a condition. *)
Lemma end_condition_without_open_condition_witness :
  conditions (snd (end_condition Overdue customer2 true None
                     (store_open day))) =
    [mkCondition 1 0 None overdue_ct 1;
     mkCondition 2 day (Some day) overdue_ct 2].
Proof.
  rewrite (end_condition_without_open_condition
             Overdue customer2 true None (store_open day) eq_refl).
  reflexivity.
Defined.

Lemma leb_offset (t d : Z) : (t + d <=? t)%Z = (d <=? 0)%Z.
Proof.
  destruct (Z.leb_spec (t + d) t), (Z.leb_spec d 0); try reflexivity; lia.
Qed.

Lemma delayed_due_new s ct oid m :
  fk_valid s ->
  delayed_due (with_condition s (new_condition s ct oid))
              (new_condition s ct oid) m = (_action_delay m <=? 0)%Z.
Proof.
  intros Hfk. unfold delayed_due.
  rewrite (count_records_ext _ s) by reflexivity.
  rewrite (count_zero_fk s) by (exact Hfk || apply next_pk_fresh).
  simpl. apply leb_offset.
Qed.

Lemma recurring_due_new s ct oid m :
  fk_valid s ->
  recurring_due (with_condition s (new_condition s ct oid))
                (new_condition s ct oid) m = (_action_interval m <=? 0)%Z.
Proof.
  intros Hfk. unfold recurring_due, baseline.
  rewrite (count_records_ext _ s) by reflexivity.
  rewrite (count_zero_fk s) by (exact Hfk || apply next_pk_fresh).
  simpl. apply leb_offset.
Qed.

(** X7: a delayed or recurring pass on a subject that has no open condition
    opens one as a side effect of reading [condition], without the initial
    actions; the condition is created now, so the pass fires exactly the
    methods whose delay (interval) is not positive. *)
Theorem scheduler_pass_opens_condition cls self s :
  open_for s (get_ct cls) (pk self) = [] -> fk_valid s ->
  let c := new_condition s (get_ct cls) (pk self) in
  let s1 := fired cls self c DELAYED
              (filter (fun m => (_action_delay m <=? 0)%Z)
                      (_get_action_methods cls "delayed"))
              (with_condition s c) in
  let s2 := fired cls self c RECURRING
              (filter (fun m => (_action_interval m <=? 0)%Z)
                      (_get_action_methods cls "recurring"))
              (with_condition s c) in
  execute_delayed_actions cls self s = (Ok tt, s1) /\
  execute_recurring_actions cls self s = (Ok tt, s2) /\
  open_for s1 (get_ct cls) (pk self) = [c] /\
  open_for s2 (get_ct cls) (pk self) = [c] /\
  (forall n, count_records s1 (cond_id c) n INITIAL = 0%nat) /\
  (forall n, count_records s2 (cond_id c) n INITIAL = 0%nat).
Proof.
  intros H Hfk c s1 s2.
  assert (Hc : forall n, count_records (with_condition s c) (cond_id c)
                           n INITIAL = 0%nat).
  { intros n. rewrite (count_records_ext _ s) by reflexivity.
    apply count_zero_fk; [exact Hfk|apply next_pk_fresh]. }
  split.
  { rewrite execute_delayed_actions_spec.
    rewrite (get_or_create_missing _ _ _ H). fold c. unfold s1.
    do 2 f_equal. apply filter_ext. intros m. apply delayed_due_new, Hfk. }
  split.
  { rewrite execute_recurring_actions_eq.
    unfold get_triggered_recurring_actions, get_or_create_condition.
    unfold bind. rewrite (get_or_create_missing _ _ _ H). fold c.
    rewrite recurring_loop_spec. simpl app.
    rewrite (for_each_fire_found cls self RECURRING c)
      by (apply open_for_created, H).
    unfold s2. do 2 f_equal. apply filter_ext. intros m.
    apply recurring_due_new, Hfk. }
  split; [unfold s1; rewrite open_for_fired; apply open_for_created, H|].
  split; [unfold s2; rewrite open_for_fired; apply open_for_created, H|].
  split; intros n.
  - unfold s1. rewrite count_records_fired, Hc, andb_false_r. reflexivity.
  - unfold s2. rewrite count_records_fired, Hc, andb_false_r. reflexivity.
Qed.

(** Customer 2 has no condition; a delayed pass gives it one and records
    nothing, [notify_manager] waits three days. *)
Lemma scheduler_pass_opens_condition_witness :
  execute_delayed_actions Overdue customer2 (store_open day) =
    (Ok tt, mkStore [mkCondition 1 0 None overdue_ct 1;
                     mkCondition 2 day None overdue_ct 2] [] day []).
Proof.
  assert (Hfk : fk_valid (store_open day)) by (intros a []).
  destruct (scheduler_pass_opens_condition Overdue customer2
              (store_open day) eq_refl Hfk) as (H & _).
  rewrite H. reflexivity.
Defined.

(** X8: in the run that opens the condition of a subject only the initial
    actions fire, when every delay and every interval of the class is
    positive: a delayed pass and a recurring pass at the same instant add
    nothing to what [create_condition] wrote. *)
Theorem opening_run_fires_only_initial_actions cls self s :
  open_for s (get_ct cls) (pk self) = [] -> fk_valid s ->
  (forall m, In m (_get_action_methods cls "delayed") ->
     (0 < _action_delay m)%Z) ->
  (forall m, In m (_get_action_methods cls "recurring") ->
     (0 < _action_interval m)%Z) ->
  (create_condition cls self true ;;;
   execute_delayed_actions cls self ;;;
   execute_recurring_actions cls self) s =
    create_condition cls self true s /\
  forall a, In a (actions (snd (create_condition cls self true s))) ->
    In a (actions s) \/ action_type a = INITIAL.
Proof.
  intros H Hfk Hd Hr.
  set (c := new_condition s (get_ct cls) (pk self)).
  set (s1 := fired cls self c INITIAL (_get_action_methods cls "initial")
                   (with_condition s c)).
  assert (E : create_condition cls self true s = (Ok tt, s1))
    by apply (create_condition_missing cls self true s H).
  assert (Ho : open_for s1 (get_ct cls) (pk self) = [c])
    by (unfold s1; rewrite open_for_fired; apply open_for_created, H).
  assert (Hz : forall n ty, ty <> INITIAL ->
            count_records s1 (cond_id c) n ty = 0%nat).
  { intros n ty Hty. unfold s1. rewrite count_records_fired.
    rewrite (count_records_ext _ s) by reflexivity.
    rewrite (count_zero_fk s) by (exact Hfk || apply next_pk_fresh).
    replace (ActionType_eqb INITIAL ty) with false
      by (destruct ty; try reflexivity; congruence).
    rewrite andb_false_r. reflexivity. }
  split.
  - unfold bind at 1. rewrite E. unfold bind.
    rewrite (execute_delayed_actions_found _ _ _ _ Ho).
    rewrite filter_none, fired_nil.
    + rewrite (execute_recurring_actions_found _ _ _ _ Ho).
      rewrite filter_none, fired_nil; [reflexivity|].
      intros m Hm. unfold recurring_due, baseline.
      rewrite Hz by discriminate. simpl.
      change (clock s1) with (clock s). specialize (Hr m Hm).
      apply Z.leb_gt. lia.
    + intros m Hm. unfold delayed_due. rewrite Hz by discriminate. simpl.
      change (clock s1) with (clock s). specialize (Hd m Hm).
      apply Z.leb_gt. lia.
  - rewrite E. simpl. intros a Ha. apply in_app_or in Ha.
    destruct Ha as [Ha|Ha]; [left; exact Ha|right].
    apply in_map_iff in Ha. destruct Ha as [m [<- _]]. reflexivity.
Qed.

Lemma opening_run_fires_only_initial_actions_witness :
  (create_condition Overdue customer1 true ;;;
   execute_delayed_actions Overdue customer1 ;;;
   execute_recurring_actions Overdue customer1) (empty_store 0) =
    create_condition Overdue customer1 true (empty_store 0).
Proof.
  assert (Hfk : fk_valid (empty_store 0)) by (intros a []).
  apply (opening_run_fires_only_initial_actions Overdue customer1
           (empty_store 0) eq_refl Hfk).
  - intros m Hm. vm_compute in Hm. destruct Hm as [<-|[]]. reflexivity.
  - intros m Hm. vm_compute in Hm. destruct Hm as [<-|[]]. reflexivity.
Defined.

(** ** Closed conditions *)

Lemma closed_frozen_invariant c (L : list Action) :
  ended c <> None ->
  forall os s,
    ids_unique s /\ In c (conditions s) /\
    filter (fun a => (condition a =? cond_id c)%nat) (actions s) = L ->
    ids_unique (run_ops os s) /\ In c (conditions (run_ops os s)) /\
    filter (fun a => (condition a =? cond_id c)%nat)
           (actions (run_ops os s)) = L.
Proof.
  intros Hc.
  assert (Hgc : forall ct oid, preserves
            (fun s => ids_unique s /\ In c (conditions s) /\
               filter (fun a => (condition a =? cond_id c)%nat)
                      (actions s) = L) (get_or_create ct oid)).
  { intros ct oid s (H1 & H2 & H3).
    pose proof (ids_unique_get_or_create ct oid s H1) as H.
    destruct (open_for s ct oid) as [|c1 [|c2 cs]] eqn:E.
    - rewrite (get_or_create_missing _ _ _ E) in *.
      split; [exact H|]. split; [|exact H3].
      simpl. apply in_or_app; left; exact H2.
    - rewrite (get_or_create_found _ _ _ _ E) in *. auto.
    - rewrite (get_or_create_many _ _ _ _ _ _ E) in *. auto. }
  apply run_ops_invariant.
  - exact Hgc.
  - intros cls self ty m _ s Hs. rewrite fire_spec.
    pose proof (Hgc (get_ct cls) (pk self) s Hs) as H.
    destruct (get_or_create _ _ s) as [[c'|e] s1] eqn:E; [|exact H].
    destruct H as (H1 & H2 & H3).
    split; [exact H1|]. split; [exact H2|].
    destruct (get_or_create_post _ _ _ _ _ E) as [Ho _].
    assert (Hin : In c' (open_for s1 (get_ct cls) (pk self)))
      by (rewrite Ho; left; reflexivity).
    apply open_for_In in Hin. destruct Hin as (K1 & K2 & _).
    simpl. rewrite filter_app, H3. simpl.
    destruct (cond_id c' =? cond_id c)%nat eqn:Eid; [|apply app_nil_r].
    apply Nat.eqb_eq in Eid.
    rewrite (NoDup_ids_inj _ _ _ H1 K1 H2 Eid) in K2. congruence.
  - intros ct oid c0 t s [(H1 & H2 & H3) Ho].
    change (ids_unique (snd (save (set_ended c0 t) s)) /\
            In c (conditions (snd (save (set_ended c0 t) s))) /\
            filter (fun a => (condition a =? cond_id c)%nat)
                   (actions (snd (save (set_ended c0 t) s))) = L).
    split; [unfold ids_unique; rewrite save_ids; exact H1|].
    split; [|exact H3].
    assert (H0 : In c0 (open_for s ct oid)) by (rewrite Ho; left; auto).
    apply open_for_In in H0. destruct H0 as (H0 & He & _).
    unfold save; simpl. apply in_map_iff. exists c. split; [|exact H2].
    destruct (cond_id c =? cond_id c0)%nat eqn:E; [|reflexivity].
    apply Nat.eqb_eq in E.
    rewrite (NoDup_ids_inj _ _ _ H1 H2 H0 E) in Hc. congruence.
  - intros t s Hs. exact Hs.
Qed.

Lemma count_records_by_condition s s' cid n ty :
  filter (fun a => (condition a =? cid)%nat) (actions s') =
  filter (fun a => (condition a =? cid)%nat) (actions s) ->
  count_records s' cid n ty = count_records s cid n ty.
Proof.
  intros H. unfold count_records.
  assert (E : forall l,
    filter (is_record cid n ty) l =
    filter (fun a => String.eqb (name a) n &&
                     ActionType_eqb (action_type a) ty)
           (filter (fun a => (condition a =? cid)%nat) l)).
  { induction l as [|a l IH]; simpl; [reflexivity|].
    unfold is_record at 1. destruct (condition a =? cid)%nat; simpl.
    - rewrite IH. reflexivity.
    - exact IH. }
  rewrite (E (actions s')), (E (actions s)), H. reflexivity.
Qed.

(** X9: once a condition is closed its action history is frozen: no
    operation of the engine ever writes another [Action] row for it.  So a
    delayed action whose condition ended before the delay passed never
    fires for that condition. *)
Theorem closed_condition_gets_no_more_records c os s :
  ids_unique s -> In c (conditions s) -> ended c <> None ->
  filter (fun a => (condition a =? cond_id c)%nat)
         (actions (run_ops os s)) =
  filter (fun a => (condition a =? cond_id c)%nat) (actions s) /\
  (forall n ty,
     count_records (run_ops os s) (cond_id c) n ty =
     count_records s (cond_id c) n ty).
Proof.
  intros Hu Hin Hc.
  destruct (closed_frozen_invariant c _ Hc os s
              (conj Hu (conj Hin eq_refl))) as (_ & _ & H).
  split; [exact H|]. intros n ty. apply count_records_by_condition, H.
Qed.

(** Customer 1's condition ended after one day; ten days later, although
    customer 1 owes money again, [notify_manager] has no row for it. *)
Lemma closed_condition_gets_no_more_records_witness :
  count_records
    (run_ops [OpClock (10 * day); OpHandle [Overdue] [] None false false;
              OpClock (20 * day); OpHandle [Overdue] [] None false false]
             store_closed)
    1 "notify_manager" DELAYED = 0%nat.
Proof.
  assert (Hu : ids_unique store_closed)
    by (repeat constructor; simpl; tauto).
  assert (Hin : In (mkCondition 1 0 (Some day) overdue_ct 1)
                   (conditions store_closed)) by (left; reflexivity).
  destruct (closed_condition_gets_no_more_records
              (mkCondition 1 0 (Some day) overdue_ct 1)
              [OpClock (10 * day); OpHandle [Overdue] [] None false false;
               OpClock (20 * day); OpHandle [Overdue] [] None false false]
              store_closed Hu Hin ltac:(discriminate)) as [_ H].
  exact (H "notify_manager"%string DELAYED).
Defined.

(** X10: a condition opened for a subject starts with an empty history,
    whatever the earlier conditions of the subject recorded: after the open
    condition [c] is ended, the next read of [condition] returns a row
    under another key with no [Action] row at all, and its delayed and
    recurring methods are due by its own [created] alone. *)
Theorem reopened_condition_starts_fresh cls self (e : bool)
    (d : option datetime) s c :
  open_for s (get_ct cls) (pk self) = [c] -> fk_valid s ->
  exists c' s',
    (end_condition cls self e d ;;; get_or_create_condition cls self) s =
      (Ok c', s') /\
    cond_id c' <> cond_id c /\ created c' = clock s /\
    (forall n ty, count_records s' (cond_id c') n ty = 0%nat) /\
    (forall m t,
       delayed_due (set_clock t s') c' m =
         (clock s + _action_delay m <=? t)%Z) /\
    (forall m t,
       recurring_due (set_clock t s') c' m =
         (clock s + _action_interval m <=? t)%Z).
Proof.
  intros Ho Hfk.
  set (t := match d with Some x => x | None => clock s end).
  set (s0 := if e then fired cls self c ENDING
                        (_get_action_methods cls "ending") s else s).
  set (s1 := snd (save (set_ended c t) s0)).
  set (c' := new_condition s1 (get_ct cls) (pk self)).
  assert (Hin : In c (conditions s)).
  { assert (H : In c (open_for s (get_ct cls) (pk self)))
      by (rewrite Ho; left; reflexivity).
    apply open_for_In in H. tauto. }
  assert (Hc0 : conditions s0 = conditions s) by (destruct e; reflexivity).
  assert (Hids : map cond_id (conditions s1) = map cond_id (conditions s))
    by (unfold s1; rewrite save_ids, Hc0; reflexivity).
  assert (Hfk1 : fk_valid s1).
  { intros a Ha. rewrite Hids. unfold s1, s0 in Ha. simpl in Ha.
    destruct e; simpl in Ha; [|auto].
    apply in_app_or in Ha. destruct Ha as [Ha|Ha]; [auto|].
    apply in_map_iff in Ha. destruct Ha as [m [<- _]]. simpl.
    apply in_map, Hin. }
  assert (Ho1 : open_for s1 (get_ct cls) (pk self) = []).
  { unfold s1. rewrite open_for_save_closed.
    rewrite (open_for_ext s0 s) by exact Hc0. rewrite Ho. simpl.
    rewrite Nat.eqb_refl. reflexivity. }
  assert (Hk : clock s1 = clock s) by (unfold s1, s0; destruct e; reflexivity).
  assert (Hz : forall n ty, count_records (with_condition s1 c')
                              (cond_id c') n ty = 0%nat).
  { intros n ty. rewrite (count_records_ext _ s1) by reflexivity.
    apply count_zero_fk; [exact Hfk1|apply next_pk_fresh]. }
  exists c', (with_condition s1 c'). split.
  { unfold bind. rewrite (end_condition_found _ _ _ _ _ _ Ho).
    apply get_or_create_missing, Ho1. }
  split.
  { intros E. apply (next_pk_fresh (map cond_id (conditions s1))).
    change (next_pk (map cond_id (conditions s1))) with (cond_id c').
    rewrite E, Hids. apply in_map, Hin. }
  split; [exact Hk|].
  split; [exact Hz|].
  split; intros m t0.
  - unfold delayed_due.
    rewrite (count_records_ext _ (with_condition s1 c')) by reflexivity.
    rewrite Hz. change (created c') with (clock s1). rewrite Hk.
    reflexivity.
  - unfold recurring_due, baseline.
    rewrite (count_records_ext _ (with_condition s1 c')) by reflexivity.
    rewrite Hz. change (created c') with (clock s1). rewrite Hk.
    reflexivity.
Qed.

Lemma reopened_condition_starts_fresh_witness :
  exists c' s',
    (end_condition Overdue customer1 true None ;;;
     get_or_create_condition Overdue customer1) (store_open day) =
      (Ok c', s') /\
    cond_id c' <> 1%nat /\ created c' = day.
Proof.
  assert (Hfk : fk_valid (store_open day)) by (intros a []).
  destruct (reopened_condition_starts_fresh Overdue customer1 true None
              (store_open day) (mkCondition 1 0 None overdue_ct 1)
              eq_refl Hfk) as (c' & s' & E & H1 & H2 & _).
  exists c', s'. auto.
Defined.

(** ** Passes at one instant *)

Lemma execute_recurring_actions_spec cls self s :
  execute_recurring_actions cls self s =
    match get_or_create (get_ct cls) (pk self) s with
    | (Ok c, s1) =>
        (Ok tt, fired cls self c RECURRING
                  (filter (recurring_due s1 c)
                          (_get_action_methods cls "recurring")) s1)
    | (Raise e, s1) => (Raise e, s1)
    end.
Proof.
  rewrite execute_recurring_actions_eq.
  unfold get_triggered_recurring_actions, get_or_create_condition, bind.
  destruct (get_or_create (get_ct cls) (pk self) s) as [[c|e] s1] eqn:E;
    [|reflexivity].
  rewrite recurring_loop_spec. simpl.
  apply for_each_fire_found. apply (get_or_create_post _ _ _ _ _ E).
Qed.

Lemma triggered_name_in cls ty f m :
  In m (_get_action_methods cls ty) ->
  In (__name__ m) (map __name__ (filter f (_get_action_methods cls ty))) ->
  In m (filter f (_get_action_methods cls ty)).
Proof.
  intros Hm Hin. apply in_map_iff in Hin. destruct Hin as [m' [Hn Hm']].
  assert (Hin' : In m' (_get_action_methods cls ty))
    by (apply filter_In in Hm'; tauto).
  rewrite <- (NoDup_names_inj _ _ _
                (_get_action_methods_NoDup cls ty) Hm Hin' Hn).
  exact Hm'.
Qed.

(** X11: a delayed pass repeated at the same instant does nothing: what it
    fired has its row, what it did not fire is still not due.  This holds
    from any store, also when the first pass opens the condition or
    raises. *)
Theorem delayed_pass_is_idempotent cls self s :
  (execute_delayed_actions cls self ;;; execute_delayed_actions cls self) s =
    execute_delayed_actions cls self s.
Proof.
  unfold bind. rewrite (execute_delayed_actions_spec cls self s).
  destruct (get_or_create (get_ct cls) (pk self) s) as [[c|e] s1] eqn:E;
    [|reflexivity].
  destruct (get_or_create_post _ _ _ _ _ E) as [Ho _].
  set (ms := _get_action_methods cls "delayed").
  set (tr := filter (delayed_due s1 c) ms).
  set (s2 := fired cls self c DELAYED tr s1).
  assert (Ho2 : open_for s2 (get_ct cls) (pk self) = [c])
    by (unfold s2; rewrite open_for_fired; exact Ho).
  rewrite (execute_delayed_actions_found _ _ _ _ Ho2).
  rewrite filter_none; [rewrite fired_nil; reflexivity|].
  intros m Hm. unfold delayed_due.
  destruct (delayed_due s1 c m) eqn:Ed.
  - assert (Hin : In m tr) by (apply filter_In; auto).
    unfold s2. rewrite (count_records_fired_self cls self c DELAYED tr s1 m);
      [reflexivity|apply triggered_names_NoDup|exact Hin].
  - unfold s2. rewrite count_records_fired, Nat.eqb_refl. simpl.
    rewrite count_name_NoDup by apply triggered_names_NoDup.
    destruct (in_dec string_dec _ _) as [Hin|_].
    + apply (triggered_name_in cls "delayed" (delayed_due s1 c) m Hm) in Hin.
      apply filter_In in Hin. destruct Hin as [_ Hin]. congruence.
    + rewrite Nat.add_0_r. exact Ed.
Qed.

(** X12: a recurring pass repeated at the same instant does nothing when
    every interval of the class is positive: the firing moves the baseline
    to now.  (A method with a zero or negative interval is due again at
    once.) *)
Theorem recurring_pass_is_idempotent cls self s :
  (forall m, In m (_get_action_methods cls "recurring") ->
     (0 < _action_interval m)%Z) ->
  (execute_recurring_actions cls self ;;;
   execute_recurring_actions cls self) s =
    execute_recurring_actions cls self s.
Proof.
  intros Hpos. unfold bind.
  rewrite (execute_recurring_actions_spec cls self s).
  destruct (get_or_create (get_ct cls) (pk self) s) as [[c|e] s1] eqn:E;
    [|reflexivity].
  destruct (get_or_create_post _ _ _ _ _ E) as [Ho _].
  set (ms := _get_action_methods cls "recurring").
  set (tr := filter (recurring_due s1 c) ms).
  set (s2 := fired cls self c RECURRING tr s1).
  assert (Ho2 : open_for s2 (get_ct cls) (pk self) = [c])
    by (unfold s2; rewrite open_for_fired; exact Ho).
  rewrite (execute_recurring_actions_found _ _ _ _ Ho2).
  rewrite filter_none; [rewrite fired_nil; reflexivity|].
  intros m Hm.
  assert (Hrec :
    filter (is_record (cond_id c) (__name__ m) RECURRING) (actions s2) =
    filter (is_record (cond_id c) (__name__ m) RECURRING) (actions s1) ++
    map (record_of c RECURRING (clock s1))
        (filter (fun x => String.eqb (__name__ x) (__name__ m)) tr)).
  { unfold s2, fired; simpl.
    rewrite filter_app, filter_records_map, Nat.eqb_refl. reflexivity. }
  destruct (recurring_due s1 c m) eqn:Ed.
  - assert (Hin : In m tr) by (apply filter_In; auto).
    rewrite filter_name_present in Hrec
      by (apply triggered_names_NoDup || exact Hin).
    assert (Ha : In (record_of c RECURRING (clock s1) m)
                    (filter (is_record (cond_id c) (__name__ m) RECURRING)
                            (actions s2)))
      by (rewrite Hrec; apply in_or_app; right; left; reflexivity).
    unfold recurring_due. rewrite baseline_latest
      by (intros E'; rewrite E' in Ha; exact Ha).
    apply latest_executed_ge in Ha.
    change (executed (record_of c RECURRING (clock s1) m))
      with (clock s1) in Ha.
    specialize (Hpos m Hm). apply Z.leb_gt.
    change (clock s2) with (clock s1). lia.
  - rewrite filter_name_absent in Hrec.
    + rewrite app_nil_r in Hrec.
      unfold recurring_due, baseline, count_records in *.
      rewrite Hrec. exact Ed.
    + intros Hin.
      apply (triggered_name_in cls "recurring" (recurring_due s1 c) m Hm)
        in Hin.
      apply filter_In in Hin. destruct Hin as [_ Hin]. congruence.
Qed.

Lemma recurring_pass_is_idempotent_witness :
  (execute_recurring_actions Overdue customer1 ;;;
   execute_recurring_actions Overdue customer1) (store_open (10 * day)) =
    execute_recurring_actions Overdue customer1 (store_open (10 * day)).
Proof.
  apply (recurring_pass_is_idempotent Overdue customer1
           (store_open (10 * day))).
  intros m Hm. vm_compute in Hm. destruct Hm as [<-|[]]. reflexivity.
Defined.

(** ** The namespace of a class *)

Lemma setattr_spec m ns y :
  StronglySorted name_lt ns ->
  (In y (setattr m ns) <->
   y = m \/ (In y ns /\ __name__ y <> __name__ m)).
Proof.
  induction ns as [|x xs IH]; simpl; intros Hs.
  - split; [intros [<-|[]]; auto|intros [->|[[] _]]; auto].
  - inversion Hs as [|? ? Hxs Hf]; subst. rewrite Forall_forall in Hf.
    specialize (IH Hxs).
    destruct (String_as_OT.compare_spec (__name__ m) (__name__ x))
      as [E|L|G]; simpl.
    + split.
      * intros [Hy|H]; [auto|right]. split; [auto|].
        intros E'. apply (name_lt_irrefl _ _ (Hf y H)). congruence.
      * intros [Hy|[[Hy|H] Hn]]; auto. subst y. congruence.
    + split.
      * intros [Hy|[Hy|H]]; [auto| |].
        -- right. subst y. split; [auto|]. intros E.
           apply (name_lt_irrefl m x L). congruence.
        -- right. split; [auto|]. intros E.
           apply (name_lt_irrefl m y (name_lt_trans _ _ _ L (Hf y H))).
           congruence.
      * intros [Hy|[[Hy|H] _]]; auto.
    + split.
      * intros [Hy|H].
        -- right. subst y. split; [auto|]. apply (name_lt_irrefl x m G).
        -- apply IH in H. destruct H as [Hy|[H Hn]]; auto.
      * intros [Hy|[[Hy|H] Hn]]; [right; apply IH; auto|auto|].
        right. apply IH. auto.
Qed.

Lemma last_def_cons d ds y :
  last_def (d :: ds) y <->
  (y = d /\ ~ In (__name__ y) (map __name__ ds)) \/ last_def ds y.
Proof.
  unfold last_def. split.
  - intros (pre & post & E & Hn). destruct pre as [|p pre]; simpl in E.
    + inversion E; subst. left. auto.
    + inversion E; subst. right. exists pre, post. auto.
  - intros [[-> Hn]|(pre & post & E & Hn)].
    + exists [], ds. auto.
    + exists (d :: pre), post. subst. auto.
Qed.

Lemma namespace_spec ds y :
  forall ns, StronglySorted name_lt ns ->
  (In y (fold_left (fun ns m => setattr m ns) ds ns) <->
   last_def ds y \/ (In y ns /\ ~ In (__name__ y) (map __name__ ds))).
Proof.
  induction ds as [|d ds IH]; intros ns Hs; simpl.
  - split; [intros H; right; auto|].
    intros [(pre & post & E & _)|[H _]]; [destruct pre; discriminate|auto].
  - rewrite (IH _ (setattr_sorted d ns Hs)), (setattr_spec d ns y Hs),
      last_def_cons.
    split.
    + intros [H|[[->|[H1 H2]] H3]]; [auto|auto|].
      right. split; [auto|]. intros [E|E]; [congruence|auto].
    + intros [[[-> H]|H]|[H1 H2]]; [right; auto|left; auto|].
      right. split; [|tauto]. right. split; [auto|].
      intros E. apply H2. left. auto.
Qed.

(** X13: the registry holds, for a trigger class, exactly the methods that
    are the last [def] of their name in the class body and carry that
    trigger's tag.  So a later [def] of the same name replaces an earlier
    one (an undecorated one removes the action), a method is in one trigger
    class at most, and no name comes twice. *)
Theorem registry_membership cls ty m :
  (In m (_get_action_methods cls ty) <->
   last_def (body cls) m /\ _action_type m = Some ty) /\
  (forall ty', In m (_get_action_methods cls ty) ->
     In m (_get_action_methods cls ty') -> ty = ty') /\
  (forall m', In m (_get_action_methods cls ty) ->
     In m' (_get_action_methods cls ty) ->
     __name__ m' = __name__ m -> m' = m) /\
  (last_def (body cls) m -> tag m = None ->
   forall ty' m', In m' (_get_action_methods cls ty') ->
     __name__ m' <> __name__ m).
Proof.
  assert (Hiff : forall ty0 m0,
    In m0 (_get_action_methods cls ty0) <->
    last_def (body cls) m0 /\ _action_type m0 = Some ty0).
  { intros ty0 m0. unfold _get_action_methods, getmembers.
    rewrite !filter_In, (namespace_spec (body cls) m0 [])
      by constructor.
    unfold hasattr_action_type. simpl.
    destruct (_action_type m0) as [t|].
    - rewrite String.eqb_eq. split.
      + intros [[[H|[[] _]] _] ->]. auto.
      + intros [H E]. inversion E. auto.
    - split; [intros [_ H]; discriminate|intros [_ H]; discriminate]. }
  split; [apply Hiff|].
  split.
  { intros ty' H1 H2. apply Hiff in H1. apply Hiff in H2.
    destruct H1 as [_ H1], H2 as [_ H2]. congruence. }
  split.
  { intros m' H1 H2 E.
    apply (NoDup_names_inj _ _ _ (_get_action_methods_NoDup cls ty)
             H1 H2 E). }
  intros (pre & post & E & Hn) Ht ty' m' Hm' En.
  apply Hiff in Hm'. destruct Hm' as [(pre' & post' & E' & Hn') Hty].
  assert (m' = m).
  { rewrite E in E'. clear - E' Hn Hn' En.
    revert pre' E'. induction pre as [|p pre IH]; intros pre' E'.
    - destruct pre' as [|p' pre']; simpl in E'.
      + inversion E'. auto.
      + inversion E'; subst. exfalso. apply Hn. rewrite <- En.
        rewrite map_app. apply in_or_app. right. left. reflexivity.
    - destruct pre' as [|p' pre']; simpl in E'.
      + inversion E'; subst. exfalso. apply Hn'. rewrite En.
        rewrite map_app. apply in_or_app. right. left. reflexivity.
      + inversion E'; subst. apply (IH pre'). assumption. }
  subst m'. unfold _action_type in Hty. rewrite Ht in Hty. discriminate.
Qed.

(** ** What the engine never does *)

Lemma rows_kept os s c :
  ids_unique s -> In c (conditions s) ->
  (exists c', In c' (conditions (run_ops os s)) /\ same_row c c' /\
              (ended c <> None -> c' = c)) /\
  (List.length (conditions s) <=
   List.length (conditions (run_ops os s)))%nat.
Proof.
  intros Hu Hin.
  set (P := fun l : list Condition =>
              NoDup (map cond_id l) /\
              (exists c', In c' l /\ same_row c c' /\
                          (ended c <> None -> c' = c)) /\
              (List.length (conditions s) <= List.length l)%nat).
  assert (H : P (conditions (run_ops os s)));
    [|destruct H as (_ & H); exact H].
  apply run_ops_conditions_invariant; subst P; cbv beta.
  - intros ct oid s1 (H1 & (c' & H2 & H3 & H4) & H5).
    pose proof (ids_unique_get_or_create ct oid s1 H1) as H.
    destruct (open_for s1 ct oid) as [|c1 [|c2 cs]] eqn:E.
    + rewrite (get_or_create_missing _ _ _ E) in *.
      split; [exact H|]. split.
      * exists c'. split; [simpl; apply in_or_app; auto|auto].
      * simpl. rewrite length_app. simpl. lia.
    + rewrite (get_or_create_found _ _ _ _ E) in *.
      split; [exact H|]. split; [exists c'; auto|exact H5].
    + rewrite (get_or_create_many _ _ _ _ _ _ E) in *.
      split; [exact H|]. split; [exists c'; auto|exact H5].
  - intros ct oid c0 t s1 (H1 & (c' & H2 & H3 & H4) & H5) Ho.
    split; [rewrite save_ids; exact H1|].
    assert (H0 : In c0 (open_for s1 ct oid)) by (rewrite Ho; left; auto).
    apply open_for_In in H0. destruct H0 as (H0 & He & _).
    split; [|unfold save; simpl; rewrite length_map; exact H5].
    exists (if (cond_id c' =? cond_id c0)%nat then set_ended c0 t else c').
    split.
    { unfold save; simpl. apply in_map_iff. exists c'. auto. }
    destruct (cond_id c' =? cond_id c0)%nat eqn:E; [|auto].
    apply Nat.eqb_eq in E.
    pose proof (NoDup_ids_inj _ _ _ H1 H2 H0 E) as Ec. subst c'.
    split.
    + unfold same_row in *. simpl. tauto.
    + intros Hc. specialize (H4 Hc). subst c0. congruence.
  - split; [exact Hu|]. split; [|lia].
    exists c. split; [exact Hin|]. split; [repeat split|auto].
Qed.

(** X14: the engine never deletes a condition and never changes [created],
    the content type or the subject of one: after any operations every row
    is still there under its key, a closed row exactly as it was, and the
    table has not shrunk. *)
Theorem condition_rows_are_kept os s c :
  ids_unique s -> In c (conditions s) ->
  (exists c', In c' (conditions (run_ops os s)) /\ same_row c c' /\
              (ended c <> None -> c' = c)) /\
  (List.length (conditions s) <=
   List.length (conditions (run_ops os s)))%nat.
Proof. apply rows_kept. Qed.

Lemma condition_rows_are_kept_witness :
  exists c',
    In c' (conditions
             (run_ops [OpClock (10 * day);
                       OpEndCondition Overdue customer1 true None]
                      (store_open 0))) /\
    same_row (mkCondition 1 0 None overdue_ct 1) c'.
Proof.
  assert (Hu : ids_unique (store_open 0))
    by (repeat constructor; simpl; tauto).
  destruct (condition_rows_are_kept
              [OpClock (10 * day); OpEndCondition Overdue customer1 true None]
              (store_open 0) (mkCondition 1 0 None overdue_ct 1) Hu
              (or_introl eq_refl)) as [(c' & H1 & H2 & _) _].
  exists c'. auto.
Defined.

Lemma saved_rows_app l1 l2 :
  saved_rows (l1 ++ l2) = saved_rows l1 ++ saved_rows l2.
Proof. unfold saved_rows. apply flat_map_app. Qed.

(** X15: the ledger is append-only.  After any operations the table
    [Action] is the old table followed by new rows, the trace is the old
    trace followed by new events, and the new rows are exactly the rows the
    new events show inserted, in the same order: no operation deletes,
    rewrites or reorders an [Action] row. *)
Theorem ledger_is_append_only os s :
  exists la lt,
    actions (run_ops os s) = actions s ++ la /\
    trace (run_ops os s) = trace s ++ lt /\
    saved_rows lt = la.
Proof.
  apply run_ops_invariant
    with (I := fun s' => exists la lt,
                 actions s' = actions s ++ la /\
                 trace s' = trace s ++ lt /\ saved_rows lt = la).
  - intros ct oid s1 (la & lt & H1 & H2 & H3).
    pose proof (get_or_create_actions ct oid s1) as (K1 & K2 & _).
    destruct (get_or_create ct oid s1) as [[c|e] s2]; simpl in *;
      exists la, lt; repeat split; congruence.
  - intros cls self ty m _ s1 (la & lt & H1 & H2 & H3). rewrite fire_spec.
    pose proof (get_or_create_actions (get_ct cls) (pk self) s1)
      as (K1 & K2 & _).
    destruct (get_or_create _ _ s1) as [[c|e] s2]; simpl in K1, K2.
    + exists (la ++ [record_of c ty (clock s2) m]),
        (lt ++ fire_events cls self c ty (clock s2) [m]).
      simpl. rewrite K1, K2, H1, H2, <- !app_assoc.
      split; [reflexivity|]. split; [reflexivity|].
      rewrite saved_rows_app, H3. reflexivity.
    + exists la, lt. repeat split; congruence.
  - intros ct oid c t s1 [(la & lt & H1 & H2 & H3) _].
    exists la, lt. auto.
  - intros t s1 (la & lt & H1 & H2 & H3). exists la, lt. auto.
  - exists [], []. rewrite !app_nil_r. auto.
Qed.

(** ** A run that cannot fail *)

Lemma safe_ret {A} (I : Store -> Prop) (a : A) : safe I (ret a).
Proof. intros s Hs. exact Hs. Qed.

Lemma safe_bind {A B} (I : Store -> Prop) (m : M A) (k : A -> M B) :
  safe I m -> (forall a, safe I (k a)) -> safe I (bind m k).
Proof. intros Hm Hk. eapply hoare_bind; [exact Hm|exact Hk]. Qed.

Lemma safe_when (I : Store -> Prop) b m : safe I m -> safe I (when b m).
Proof. destruct b; simpl; auto using safe_ret. Qed.

Lemma safe_for_each {A} (I : Store -> Prop) (xs : list A) f :
  (forall x, In x xs -> safe I (f x)) -> safe I (for_each xs f).
Proof.
  induction xs as [|x xs IH]; simpl; intros H.
  - apply safe_ret.
  - apply safe_bind; [apply H; auto|intros _; apply IH; auto].
Qed.

Lemma safe_intro {A} (I : Store -> Prop) (m : M A) :
  (forall s, I s -> I (snd (m s)) /\ exists a, fst (m s) = Ok a) ->
  safe I m.
Proof.
  intros H s Hs. destruct (H s Hs) as [H1 [a H2]].
  destruct (m s) as [[a'|e] s']; simpl in *; [exact H1|discriminate].
Qed.

Lemma get_or_create_ok ct oid s :
  at_most_one_open s ->
  exists c s1, get_or_create ct oid s = (Ok c, s1) /\
               open_for s1 ct oid = [c] /\ at_most_one_open s1.
Proof.
  intros Hs.
  pose proof (at_most_one_open_get_or_create ct oid s Hs) as H.
  destruct (get_or_create ct oid s) as [[c|e] s1] eqn:E.
  - exists c, s1. split; [reflexivity|]. split; [|exact H].
    apply (get_or_create_post _ _ _ _ _ E).
  - exfalso. specialize (Hs ct oid).
    destruct (open_for s ct oid) as [|c1 [|c2 cs]] eqn:F.
    + rewrite (get_or_create_missing _ _ _ F) in E. discriminate.
    + rewrite (get_or_create_found _ _ _ _ F) in E. discriminate.
    + simpl in Hs. lia.
Qed.

Lemma safe_get_or_create_condition cls self :
  safe at_most_one_open (get_or_create_condition cls self).
Proof.
  intros s Hs. unfold get_or_create_condition.
  destruct (get_or_create_ok (get_ct cls) (pk self) s Hs)
    as (c & s1 & E & _ & H). rewrite E. exact H.
Qed.

Lemma at_most_one_open_fired cls self c ty ms s :
  at_most_one_open s -> at_most_one_open (fired cls self c ty ms s).
Proof. intros H ct oid. rewrite open_for_fired. apply H. Qed.

Lemma safe_fire cls self ty m :
  safe at_most_one_open (fire cls self ty m).
Proof.
  intros s Hs. rewrite fire_spec.
  destruct (get_or_create_ok (get_ct cls) (pk self) s Hs)
    as (c & s1 & E & _ & H). rewrite E.
  apply at_most_one_open_fired, H.
Qed.

(** The two per-subject operations with [execute] false: no loop body
    runs, only [condition] is read. *)
Lemma safe_create_condition_quiet cls self :
  safe at_most_one_open (create_condition cls self false).
Proof.
  unfold create_condition.
  apply safe_bind; [apply safe_get_or_create_condition|].
  intros _. apply safe_ret.
Qed.

Lemma safe_end_condition_quiet cls self d :
  safe at_most_one_open (end_condition cls self false d).
Proof.
  unfold end_condition. apply safe_bind; [apply safe_ret|].
  intros _ s Hs. unfold get_or_create_condition, bind.
  destruct (get_or_create_ok (get_ct cls) (pk self) s Hs)
    as (c & s1 & E & _ & H). rewrite E.
  assert (K : forall t, at_most_one_open (snd (save (set_ended c t) s1))).
  { intros t ct oid. rewrite open_for_save_closed.
    eapply Nat.le_trans; [apply filter_length_le|apply H]. }
  destruct d as [x|]; simpl; apply K.
Qed.



Lemma safe_process_quiet cls :
  exists_when cls <> None -> safe at_most_one_open (process cls false).
Proof.
  intros Hq. destruct (exists_when cls) as [q|] eqn:Eq; [|congruence].
  unfold process. apply safe_bind.
  { unfold create_all_conditions. apply safe_bind.
    - intros s Hs. rewrite (to_be_created_spec _ _ _ Eq). exact Hs.
    - intros l. apply safe_for_each. intros r _.
      apply safe_create_condition_quiet. }
  intros _. apply safe_bind; [|intros _; apply safe_ret].
  unfold end_all_conditions. apply safe_bind.
  - intros s Hs. rewrite (to_be_ended_spec _ _ _ Eq). exact Hs.
  - intros l. apply safe_for_each. intros r _.
    apply safe_end_condition_quiet.
Qed.

(** X16: with [--no-execute] the command cannot fail on a consistent
    table.  No action method is called in such a run; when the arguments
    select a list of classes, every selected class defines [exists_when]
    and no subject has two open conditions, [handle] returns without an
    exception and leaves at most one open condition per subject. *)
Theorem handle_no_execute_succeeds subclasses apps app (all_apps : bool)
    s l :
  at_most_one_open s ->
  condition_classes subclasses apps (if all_apps then None else app) s =
    (Ok l, s) ->
  (forall cls, In cls l -> exists_when cls <> None) ->
  fst (handle subclasses apps app all_apps true s) = Ok tt /\
  at_most_one_open (snd (handle subclasses apps app all_apps true s)) /\
  trace (snd (handle subclasses apps app all_apps true s)) = trace s.
Proof.
  intros Hs Hl Hq.
  assert (Ht : trace (snd (handle subclasses apps app all_apps true s)) =
               trace s).
  { apply (preserves_snd (fun s' => actions s' = actions s /\
                                    trace s' = trace s));
      [|split; reflexivity].
    unfold handle. apply preserves_bind.
    - apply preserves_read. intros s0. apply condition_classes_read.
    - intros l0. apply preserves_for_each. intros cls _.
      apply quiet_process. }
  unfold handle, bind in *. rewrite Hl in *.
  assert (H : safe at_most_one_open
                (for_each l (fun cls => process cls false))).
  { apply safe_for_each. intros cls Hc. apply safe_process_quiet, Hq, Hc. }
  specialize (H s Hs).
  destruct (for_each l _ s) as [[[]|e] s']; [auto|destruct H].
Qed.

Lemma handle_no_execute_succeeds_witness :
  fst (handle [Overdue] [] None false true (store_open (5 * day))) = Ok tt.
Proof.
  assert (H1 : at_most_one_open (store_open (5 * day))).
  { intros ct oid. unfold open_for, open_conditions. simpl.
    destruct (for_subject ct oid _); simpl; lia. }
  assert (H2 : forall cls, In cls [Overdue] -> exists_when cls <> None).
  { intros cls [<-|[]]. discriminate. }
  destruct (handle_no_execute_succeeds [Overdue] [] None false
              (store_open (5 * day)) [Overdue] H1 eq_refl H2) as [H _].
  exact H.
Defined.

(** ** The order of the phases *)





(** ** The two halves of reconciliation *)

(** X18: [create_all_conditions] on a consistent table succeeds; afterwards
    every subject that satisfies the predicate has exactly one open
    condition, and a subject (of any class) that had open conditions before
    has the same ones. *)
Theorem create_all_conditions_opens_the_missing cls q e s :
  exists_when cls = Some q ->
  NoDup (map pk (rows cls)) ->
  at_most_one_open s -> ids_unique s -> fk_valid s ->
  exists s1,
    create_all_conditions cls e s = (Ok tt, s1) /\
    (forall r, In r (rows cls) -> q r = true ->
       exists c, open_for s1 (get_ct cls) (pk r) = [c]) /\
    (forall ct oid, open_for s ct oid <> [] ->
       open_for s1 ct oid = open_for s ct oid).
Proof.
  intros Hq Hnd Hone Hu Hfk.
  set (l1 := filter (fun r => negb (pk__in (open_ids cls s) r))
                    (filter q (rows cls))).
  assert (Hno : forall r, In r l1 -> open_for s (get_ct cls) (pk r) = []).
  { intros r Hr.
    apply (to_be_created_excludes_open cls s l1 s r);
      [apply to_be_created_spec, Hq|exact Hr]. }
  destruct (create_loop cls e (map cond_id (conditions s)) l1 s)
    as (s1 & E1 & _ & _ & _ & Hnew & Hkeep); auto.
  { unfold l1. do 2 apply NoDup_map_filter. exact Hnd. }
  { intros _ i Hi Hni. tauto. }
  assert (Hc1 : create_all_conditions cls e s = (Ok tt, s1)).
  { unfold create_all_conditions, bind.
    rewrite (to_be_created_spec _ _ _ Hq). exact E1. }
  assert (Hone1 : at_most_one_open s1).
  { pose proof (at_most_one_open_run_ops [OpCreateAll cls e] s Hone) as H.
    change (at_most_one_open (snd (create_all_conditions cls e s))) in H.
    rewrite Hc1 in H. exact H. }
  exists s1. split; [exact Hc1|]. split; [|exact Hkeep].
  intros r Hr Hqr. apply (open_for_single _ _ _ Hone1).
  destruct (pk__in (open_ids cls s) r) eqn:Ep.
  - apply pk__in_open_ids in Ep. rewrite Hkeep; auto.
  - apply Hnew. unfold l1. apply filter_In.
    split; [apply filter_In; auto|rewrite Ep; reflexivity].
Qed.

Lemma create_all_conditions_opens_the_missing_witness :
  exists s1,
    create_all_conditions Overdue true (empty_store 0) = (Ok tt, s1) /\
    exists c, open_for s1 (get_ct Overdue) (pk customer1) = [c].
Proof.
  assert (Hnd : NoDup (map pk (rows Overdue))).
  { simpl. repeat constructor; simpl; intuition discriminate. }
  assert (H1 : at_most_one_open (empty_store 0))
    by (intros ct oid; simpl; lia).
  assert (H2 : ids_unique (empty_store 0)) by constructor.
  assert (H3 : fk_valid (empty_store 0)) by (intros a []).
  destruct (create_all_conditions_opens_the_missing
              Overdue (fun r => (0 <? field "balance" r)%Z) true
              (empty_store 0) eq_refl Hnd H1 H2 H3) as (s1 & E & H & _).
  exists s1. split; [exact E|].
  apply (H customer1); [left; reflexivity|reflexivity].
Defined.

(** X19: [end_all_conditions] on a consistent table succeeds; afterwards no
    subject that fails the predicate has an open condition, and the open
    conditions of the subjects that satisfy it are untouched. *)
Theorem end_all_conditions_closes_the_stale cls q e s :
  exists_when cls = Some q ->
  NoDup (map pk (rows cls)) ->
  at_most_one_open s -> ids_unique s ->
  exists s2,
    end_all_conditions cls e s = (Ok tt, s2) /\
    (forall r, In r (rows cls) -> q r = false ->
       open_for s2 (get_ct cls) (pk r) = []) /\
    (forall r, In r (rows cls) -> q r = true ->
       open_for s2 (get_ct cls) (pk r) = open_for s (get_ct cls) (pk r)).
Proof.
  intros Hq Hnd Hone Hu.
  set (l2 := filter (pk__in (open_ids cls s))
                    (filter (fun r => negb (q r)) (rows cls))).
  destruct (end_loop cls e (map cond_id (conditions s)) l2 s)
    as (s2 & E2 & _ & Hended & Hrest & Hnil); auto.
  { unfold l2. do 2 apply NoDup_map_filter. exact Hnd. }
  { intros r Hr. unfold l2 in Hr. apply filter_In in Hr.
    apply pk__in_open_ids. tauto. }
  { intros _ i Hi Hni. tauto. }
  exists s2. split.
  { unfold end_all_conditions, bind.
    rewrite (to_be_ended_spec _ _ _ Hq). exact E2. }
  split.
  - intros r Hr Hqr.
    destruct (pk__in (open_ids cls s) r) eqn:Ep.
    + apply Hended. unfold l2. apply filter_In.
      split; [apply filter_In; rewrite Hqr; auto|exact Ep].
    + apply Hnil.
      destruct (open_for s (get_ct cls) (pk r)) eqn:Eo; [reflexivity|].
      assert (Ht : pk__in (open_ids cls s) r = true)
        by (apply pk__in_open_ids; congruence).
      congruence.
  - intros r Hr Hqr. apply Hrest.
    intros Hin. apply in_map_iff in Hin. destruct Hin as [r2 [Epk Hr2]].
    unfold l2 in Hr2. apply filter_In in Hr2. destruct Hr2 as [Hr2 _].
    apply filter_In in Hr2. destruct Hr2 as [Hr2 Hq2].
    rewrite (NoDup_map_inj pk _ _ _ Hnd Hr2 Hr Epk) in Hq2.
    rewrite Hqr in Hq2. discriminate.
Qed.

Lemma end_all_conditions_closes_the_stale_witness :
  exists s2,
    end_all_conditions Overdue true
      (mkStore [mkCondition 1 0 None overdue_ct 2] [] day []) = (Ok tt, s2) /\
    open_for s2 (get_ct Overdue) (pk customer2) = [].
Proof.
  set (s := mkStore [mkCondition 1 0 None overdue_ct 2] [] day []).
  assert (Hnd : NoDup (map pk (rows Overdue))).
  { simpl. repeat constructor; simpl; intuition discriminate. }
  assert (H1 : at_most_one_open s).
  { intros ct oid. unfold open_for, open_conditions. simpl.
    destruct (for_subject ct oid _); simpl; lia. }
  assert (H2 : ids_unique s) by (repeat constructor; simpl; tauto).
  destruct (end_all_conditions_closes_the_stale
              Overdue (fun r => (0 <? field "balance" r)%Z) true s
              eq_refl Hnd H1 H2) as (s2 & E & H & _).
  exists s2. split; [exact E|].
  apply (H customer2); [right; left; reflexivity|reflexivity].
Defined.
